(** * QuickICL: the in-context-learning prompt sampler of [dataset.py]

    A shallow embedding of the class [ICLDataLoader] and a verification of the
    cycling, sampling and formatting policy of its iterator.

    Python objects are modelled as follows.
    - A corpus record is a [dict]: a finite map from field names to values.
    - The loader object is a record of its attributes; the two attributes that
      only [__iter__] creates are optional.
    - The module [random] is an interface (a type of generator states with
      [shuffle] and [sample]) together with the contract its documentation
      gives; a small linear congruential generator implements it.
    - A method is a computation in a state-and-exception monad over the loader
      and the generator: what a method wrote before it raised stays written. *)

From stdpp Require Import base decidable option list gmap strings pretty.
From Stdlib Require Import ZArith Lia.

Local Open Scope Z_scope.

(** ** Python values and exceptions *)

(** The values found in the fields of a record: JSON strings, and the integer
    labels of the sentiment data set. *)
Inductive value : Type :=
  | VStr (s : string)
  | VInt (z : Z).

#[global] Instance value_eq_dec : EqDecision value.
Proof. solve_decision. Defined.

(** [str(v)], as an f-string placeholder formats it. *)
Definition py_str (v : value) : string :=
  match v with
  | VStr s => s
  | VInt z => pretty z
  end.

(** A record of the corpus: a Python [dict] with string keys. *)
Abbreviation item := (gmap string value).

(** The built-in exceptions the loader can raise. *)
Inductive exn : Type :=
  | StopIteration
  | AttributeError
  | IndexError
  | KeyError
  | ValueError.

#[global] Instance exn_eq_dec : EqDecision exn.
Proof. solve_decision. Defined.

(** The line feed, [chr(10)]. *)
Definition nl : string := String (Ascii.ascii_of_nat 10) EmptyString.

(** [sep.join(parts)]. *)
Definition join (sep : string) (parts : list string) : string :=
  String.concat sep parts.

(** [sub in s] on strings. *)
Definition str_contains (sub s : string) : bool :=
  match String.index 0 sub s with
  | Some _ => true
  | None => false
  end.

(** ** The module [random] *)

(** A generator state [G] with the two operations the loader calls.
    [random.shuffle(x)] rearranges [x] in place; [random.sample(pop, k)]
    chooses [k] distinct positions of [pop].  The laws are the documented
    contract: a shuffle is a permutation, and a sample of size [k <= n]
    consists of [k] pairwise different positions below [n]. *)
Class Random (G : Type) : Type := {
  random_shuffle : G → list nat → list nat * G;
  random_positions : G → nat → nat → list nat * G;
  random_shuffle_perm : ∀ g l, (random_shuffle g l).1 ≡ₚ l;
  random_positions_length : ∀ g n k,
    (k ≤ n)%nat → length (random_positions g n k).1 = k;
  random_positions_NoDup : ∀ g n k,
    (k ≤ n)%nat → NoDup (random_positions g n k).1;
  random_positions_lt : ∀ g n k,
    (k ≤ n)%nat → Forall (λ j, (j < n)%nat) (random_positions g n k).1
}.

(** [random.sample(population, k)]: a [ValueError] when [k] is negative or
    larger than the population, and otherwise the elements at the chosen
    positions, in the order they were chosen. *)
Definition random_sample `{Random G} {A : Type}
    (g : G) (population : list A) (k : Z) : (exn + list A) * G :=
  let n := length population in
  if bool_decide (0 ≤ k ≤ Z.of_nat n) then
    let '(js, g') := random_positions g n (Z.to_nat k) in
    match mapM (λ j, population !! j) js with
    | Some xs => (inr xs, g')
    | None => (inl IndexError, g')
    end
  else (inl ValueError, g).

(** ** A concrete generator *)

Module LCG.

(** One step of a 31-bit linear congruential generator. *)
Definition advance (g : N) : N :=
  ((g * 1103515245 + 12345) mod 2147483648)%N.

(** [randbelow(n)]: an index below [n] (0 when [n] is 0). *)
Definition randbelow (g : N) (n : nat) : nat * N :=
  let g' := advance g in
  (N.to_nat ((g' / 65536) mod N.of_nat n), g').

(** Shuffle by repeated selection: draw a position of what is left, emit
    the element there, delete it. *)
Fixpoint select_all (fuel : nat) (g : N) (l : list nat) : list nat * N :=
  match fuel with
  | O => ([], g)
  | S fuel' =>
      let '(j, g') := randbelow g (length l) in
      match l !! j with
      | Some x =>
          let '(rest, g'') := select_all fuel' g' (delete j l) in
          (x :: rest, g'')
      | None => ([], g')
      end
  end.

Definition shuffle (g : N) (l : list nat) : list nat * N :=
  select_all (length l) g l.

(** A sample of [k] positions below [n]: the first [k] entries of a
    shuffle of [0 .. n-1]. *)
Definition positions (g : N) (n k : nat) : list nat * N :=
  let '(p, g') := shuffle g (seq 0 n) in (take k p, g').

End LCG.

(** ** The loader object *)

(** The progress bar of [tqdm]: its total, its count and whether it was
    closed. *)
Record tqdm : Type := Tqdm {
  total : Z;
  count : Z;
  closed : bool
}.

(** The attributes of an [ICLDataLoader].  [current_iteration] and [tqdm_bar]
    exist only once [__iter__] has run. *)
Record ICLDataLoader : Type := Loader {
  file_path : string;
  context_size : Z;
  data : list item;
  ids : list nat;
  ids_queue : list nat;
  dataset_size : Z;
  current_iteration : option Z;
  tqdm_bar : option tqdm
}.

Definition set_ids (v : list nat) (self : ICLDataLoader) : ICLDataLoader :=
  Loader (file_path self) (context_size self) (data self) v
         (ids_queue self) (dataset_size self) (current_iteration self)
         (tqdm_bar self).

Definition set_ids_queue (v : list nat) (self : ICLDataLoader) : ICLDataLoader :=
  Loader (file_path self) (context_size self) (data self) (ids self)
         v (dataset_size self) (current_iteration self) (tqdm_bar self).

Definition set_current_iteration (v : Z) (self : ICLDataLoader) : ICLDataLoader :=
  Loader (file_path self) (context_size self) (data self) (ids self)
         (ids_queue self) (dataset_size self) (Some v) (tqdm_bar self).

Definition set_tqdm_bar (v : tqdm) (self : ICLDataLoader) : ICLDataLoader :=
  Loader (file_path self) (context_size self) (data self) (ids self)
         (ids_queue self) (dataset_size self) (current_iteration self)
         (Some v).

(** The invariant of the cycling queue: [ids] is a permutation of the corpus
    indices; the queue is what is left of such a permutation once the indices
    already used in the pass are taken away; and the progress bar exists
    whenever the counter does. *)
Record valid (s : ICLDataLoader) : Prop := Valid {
  valid_ids : ids s ≡ₚ seq 0 (length (data s));
  valid_queue : ∃ used, used ++ ids_queue s ≡ₚ seq 0 (length (data s));
  valid_bar : is_Some (current_iteration s) → is_Some (tqdm_bar s)
}.

(** What one call of [__next__] computed: its local variables and the prompt
    it returned. *)
Record step : Type := Step {
  next_index : nat;
  prediction_item : item;
  context_candidates : list item;
  context_examples : list item;
  prompt : string
}.

(** ** Prompt templates *)

(** [item[key]]. *)
Definition getitem (it : item) (key : string) : exn + value :=
  match it !! key with
  | Some v => inr v
  | None => inl KeyError
  end.

(** The f-strings of lines 94-98: a context line and the closing query line
    of each data set kind. *)
Definition pair_line (it : item) : exn + string :=
  match getitem it "input" with
  | inl e => inl e
  | inr i =>
      match getitem it "output" with
      | inl e => inl e
      | inr o => inr (py_str i +:+ ": " +:+ py_str o)
      end
  end.

Definition pair_query (it : item) : exn + string :=
  match getitem it "input" with
  | inl e => inl e
  | inr i => inr (py_str i +:+ ": ")
  end.

Definition sentiment_line (it : item) : exn + string :=
  match getitem it "sentence" with
  | inl e => inl e
  | inr s =>
      match getitem it "label" with
      | inl e => inl e
      | inr l => inr ("Sentence: " +:+ py_str s +:+ " Answer: " +:+ py_str l)
      end
  end.

Definition sentiment_query (it : item) : exn + string :=
  match getitem it "sentence" with
  | inl e => inl e
  | inr s => inr ("Sentence: " +:+ py_str s +:+ " Answer: ")
  end.

(** A list comprehension whose body may raise: the first exception wins. *)
Fixpoint comprehension {A B : Type} (f : A → exn + B) (l : list A) : exn + list B :=
  match l with
  | [] => inr []
  | x :: l' =>
      match f x with
      | inl e => inl e
      | inr y =>
          match comprehension f l' with
          | inl e => inl e
          | inr ys => inr (y :: ys)
          end
      end
  end.

(** Lines 93-98: the prompt built from the drawn context and the query. *)
Definition build_prompt (fp : string) (context : list item) (query : item)
    : exn + string :=
  let line := if str_contains "json" fp then pair_line else sentiment_line in
  let last := if str_contains "json" fp then pair_query else sentiment_query in
  match comprehension line context with
  | inl e => inl e
  | inr lines =>
      match last query with
      | inl e => inl e
      | inr q => inr (join nl lines +:+ nl +:+ q)
      end
  end.

(** A record has the fields its data set kind reads. *)
Definition well_shaped (fp : string) (it : item) : Prop :=
  if str_contains "json" fp
  then is_Some (it !! "input") ∧ is_Some (it !! "output")
  else is_Some (it !! "sentence") ∧ is_Some (it !! "label").

(** ** Methods *)

Section Methods.
Context `{Random G}.

(** A method runs on the object and on the generator of the module
    [random]; it returns a value or raises, and leaves both behind. *)
Definition world : Type := ICLDataLoader * G.

Definition M (A : Type) : Type := world → (exn + A) * world.

#[global] Instance M_ret : MRet M := λ A x w, (inr x, w).

#[global] Instance M_bind : MBind M := λ A B f m w,
  match m w with
  | (inr x, w') => f x w'
  | (inl e, w') => (inl e, w')
  end.

#[global] Instance M_fmap : FMap M := λ A B f m w,
  match m w with
  | (inr x, w') => (inr (f x), w')
  | (inl e, w') => (inl e, w')
  end.

Definition raise {A : Type} (e : exn) : M A := λ w, (inl e, w).

Definition lift {A : Type} (r : exn + A) : M A := λ w, (r, w).

(** [self.field], for an attribute that always exists. *)
Definition attr {A : Type} (field : ICLDataLoader → A) : M A :=
  λ w, (inr (field w.1), w).

(** [self.field], for an attribute that [__iter__] creates. *)
Definition getattr {A : Type} (field : ICLDataLoader → option A) : M A :=
  λ w, match field w.1 with
       | Some v => (inr v, w)
       | None => (inl AttributeError, w)
       end.

(** [self.field = v]. *)
Definition setattr (set : ICLDataLoader → ICLDataLoader) : M unit :=
  λ w, (inr tt, (set w.1, w.2)).

(** [random.shuffle(self.ids)]: in place. *)
Definition shuffle_ids : M unit :=
  λ w, let '(l, g') := random_shuffle w.2 (ids w.1) in
       (inr tt, (set_ids l w.1, g')).

(** [self.ids_queue.pop(0)]. *)
Definition pop_front : M nat :=
  λ w, match ids_queue w.1 with
       | [] => (inl IndexError, w)
       | i :: q => (inr i, (set_ids_queue q w.1, w.2))
       end.

(** [self.data[i]]. *)
Definition data_at (i : nat) : M item :=
  λ w, match data w.1 !! i with
       | Some it => (inr it, w)
       | None => (inl IndexError, w)
       end.

(** [random.sample(population, k)]. *)
Definition sample (population : list item) (k : Z) : M (list item) :=
  λ w, let '(r, g') := random_sample w.2 population k in (r, (w.1, g')).

(** Lines 16-26.  The two loaders are outside the class's logic: the
    records they return are the argument [loaded].  The queue is copied
    from [ids] on line 24, and [ids] is shuffled after that, on
    line 26. *)
Definition __init__ (fp : string) (loaded : list item)
    (k : Z) (size : Z) (g : G) : world :=
  let ids0 := seq 0 (length loaded) in
  let queue := ids0 in
  let '(shuffled, g') := random_shuffle g ids0 in
  (Loader fp k loaded shuffled queue size None None, g').

(** Lines 65-68. *)
Definition __iter__ : M unit :=
  setattr (set_current_iteration 0);;
  size ← attr dataset_size;
  setattr (set_tqdm_bar (Tqdm size 0 false)).

(** Lines 82-84: an empty queue is refilled with a reshuffle of [ids]. *)
Definition refill : M unit :=
  queue ← attr ids_queue;
  if bool_decide (length queue = 0%nat) then
    shuffle_ids;;
    shuffled ← attr ids;
    setattr (set_ids_queue shuffled)
  else mret tt.

(** The state in which the pop of line 86 happens. *)
Definition refilled (w : world) : world := (refill w).2.

(** Lines 78-101, returning the locals along with the prompt. *)
Definition next_step : M step :=
  current ← getattr current_iteration;
  size ← attr dataset_size;
  if bool_decide (size ≤ current) then
    bar ← getattr tqdm_bar;
    setattr (set_tqdm_bar (Tqdm (total bar) (count bar) true));;
    raise StopIteration
  else
    refill;;
    next_index ← pop_front;
    prediction_item ← data_at next_index;
    corpus ← attr data;
    let context_candidates := filter (λ it, it ≠ prediction_item) corpus in
    k ← attr context_size;
    context_examples ← sample context_candidates k;
    fp ← attr file_path;
    prompt ← lift (build_prompt fp context_examples prediction_item);
    bar ← getattr tqdm_bar;
    setattr (set_tqdm_bar (Tqdm (total bar) (count bar + 1) (closed bar)));;
    current ← getattr current_iteration;
    setattr (set_current_iteration (current + 1));;
    mret (Step next_index prediction_item context_candidates
               context_examples prompt).

(** Lines 70-101: what the caller receives is the prompt. *)
Definition __next__ : M string := prompt <$> next_step.

(** The loop [for p in loader] after [iter(loader)]: the steps taken, and
    the exception that ended the loop ([None] when [fuel] calls were not
    enough to end it). *)
Fixpoint iterate (fuel : nat) (w : world) : list step * option exn * world :=
  match fuel with
  | O => ([], None, w)
  | S fuel' =>
      match next_step w with
      | (inl e, w') => ([], Some e, w')
      | (inr st, w') =>
          let '(sts, e, w'') := iterate fuel' w' in (st :: sts, e, w'')
      end
  end.

(** Construct, start iterating and consume the whole sequence. *)
Definition run (fp : string) (loaded : list item) (k : Z) (size : Z) (g : G)
    : list step * option exn * world :=
  let w := __init__ fp loaded k size g in
  iterate (S (Z.to_nat size)) (__iter__ w).2.

(** The calls a client can make on a constructed loader, and the state a
    sequence of them leaves (whether or not a call raised). *)
Inductive call : Type := CallIter | CallNext.

Definition do_call (w : world) (c : call) : world :=
  match c with
  | CallIter => (__iter__ w).2
  | CallNext => (__next__ w).2
  end.

Definition after (calls : list call) (w : world) : world :=
  foldl do_call w calls.

End Methods.

(** ** Example corpora *)

Definition hot : item := {[ "input" := VStr "hot"; "output" := VStr "cold" ]}.
Definition up : item := {[ "input" := VStr "up"; "output" := VStr "down" ]}.
Definition big : item := {[ "input" := VStr "big"; "output" := VStr "small" ]}.

(** The corpus of the antonym scenario. *)
Definition antonyms : list item := [hot; up; big].

(** Two records of the sentiment kind, with integer labels. *)
Definition good : item := {[ "sentence" := VStr "good"; "label" := VInt 1 ]}.
Definition bad : item := {[ "sentence" := VStr "bad"; "label" := VInt 0 ]}.

(** ** The templates at work *)

Example json_in_path :
  str_contains "json" "data/antonyms.json" = true ∧
  str_contains "json" "data/sst2" = false ∧
  str_contains "json" "js_on" = false.
Proof. repeat split; reflexivity. Qed.

Example pair_prompt :
  build_prompt "antonyms.json" [up; big] hot
  = inr ("up: down" +:+ nl +:+ "big: small" +:+ nl +:+ "hot: ").
Proof. vm_compute. reflexivity. Qed.

Example sentiment_prompt :
  build_prompt "sst2" [good] bad
  = inr ("Sentence: good Answer: 1" +:+ nl +:+ "Sentence: bad Answer: ").
Proof. vm_compute. reflexivity. Qed.

Example missing_field : build_prompt "sst2" [good] hot = inl KeyError.
Proof. vm_compute. reflexivity. Qed.

(** ** The concrete generator satisfies the contract of [random] *)

Module LCGFacts.
Import LCG.

Lemma randbelow_lt g n : (0 < n)%nat → ((randbelow g n).1 < n)%nat.
Proof.
  intros Hn. unfold randbelow. simpl.
  assert ((advance g / 65536) mod N.of_nat n < N.of_nat n)%N
    by (apply N.mod_upper_bound; lia).
  lia.
Qed.

Lemma select_all_perm fuel : ∀ g l,
  length l = fuel → (select_all fuel g l).1 ≡ₚ l.
Proof.
  induction fuel as [|fuel IH]; intros g l Hlen.
  - by destruct l.
  - cbn [select_all]. destruct (randbelow g (length l)) as [j g'] eqn:Hj.
    assert (j < length l)%nat as Hlt.
    { change j with (j, g').1. rewrite <- Hj. apply randbelow_lt. lia. }
    destruct (lookup_lt_is_Some_2 l j Hlt) as [x Hx]. rewrite Hx.
    specialize (IH g' (delete j l)).
    destruct (select_all fuel g' (delete j l)) as [rest g''].
    simpl in *. rewrite IH.
    + symmetry. by apply delete_Permutation.
    + rewrite length_delete; [lia | eauto].
Qed.

Lemma shuffle_perm g l : (shuffle g l).1 ≡ₚ l.
Proof. by apply select_all_perm. Qed.

Lemma positions_eq g n k : (positions g n k).1 = take k (shuffle g (seq 0 n)).1.
Proof. unfold positions. by destruct (shuffle g (seq 0 n)). Qed.

Lemma positions_length g n k : (k ≤ n)%nat → length (positions g n k).1 = k.
Proof.
  intros Hk. rewrite positions_eq, length_take, (shuffle_perm g (seq 0 n)).
  rewrite length_seq. lia.
Qed.

Lemma positions_NoDup g n k : NoDup (positions g n k).1.
Proof.
  rewrite positions_eq. eapply sublist_NoDup; [|apply sublist_take].
  rewrite (shuffle_perm g (seq 0 n)). apply NoDup_seq.
Qed.

Lemma positions_lt g n k : Forall (λ j, (j < n)%nat) (positions g n k).1.
Proof.
  rewrite positions_eq. apply Forall_take.
  rewrite (shuffle_perm g (seq 0 n)).
  apply Forall_forall. intros j Hj. apply elem_of_seq in Hj. lia.
Qed.

End LCGFacts.

#[global] Instance lcg_random : Random N := {|
  random_shuffle := LCG.shuffle;
  random_positions := LCG.positions;
  random_shuffle_perm := LCGFacts.shuffle_perm;
  random_positions_length := LCGFacts.positions_length;
  random_positions_NoDup := λ g n k _, LCGFacts.positions_NoDup g n k;
  random_positions_lt := λ g n k _, LCGFacts.positions_lt g n k
|}.

(** ** The step, case by case *)

Section Step.
Context `{Random G}.
Implicit Types (w : world (G:=G)) (g : G).

Ltac unfold_M :=
  unfold refilled, next_step, refill, shuffle_ids, pop_front, data_at,
    sample, getattr, attr, setattr, raise, lift, mbind, M_bind, mret, M_ret,
    fmap, M_fmap in *.

Lemma refilled_nonempty w : ids_queue w.1 ≠ [] → refilled w = w.
Proof.
  destruct w as [[fp k d i q T c b] g]. simpl. intros Hq. unfold_M. simpl.
  destruct q; [congruence|]. reflexivity.
Qed.

Lemma refilled_empty w :
  ids_queue w.1 = [] →
  refilled w =
    (set_ids_queue (random_shuffle w.2 (ids w.1)).1
       (set_ids (random_shuffle w.2 (ids w.1)).1 w.1),
     (random_shuffle w.2 (ids w.1)).2).
Proof.
  destruct w as [[fp k d i q T c b] g]. simpl. intros ->. unfold_M. simpl.
  by destruct (random_shuffle g i).
Qed.

(** [__next__] with the monad unfolded: every way a call can end. *)
Lemma next_step_eq w :
  next_step w =
    match current_iteration w.1 with
    | None => (inl AttributeError, w)
    | Some c =>
        if bool_decide (dataset_size w.1 ≤ c) then
          match tqdm_bar w.1 with
          | None => (inl AttributeError, w)
          | Some bar =>
              (inl StopIteration,
               (set_tqdm_bar (Tqdm (total bar) (count bar) true) w.1, w.2))
          end
        else
          let r := refilled w in
          match ids_queue r.1 with
          | [] => (inl IndexError, r)
          | i :: q' =>
              let s1 := set_ids_queue q' r.1 in
              match data s1 !! i with
              | None => (inl IndexError, (s1, r.2))
              | Some it =>
                  let cands := filter (λ x, x ≠ it) (data s1) in
                  match random_sample r.2 cands (context_size s1) with
                  | (inl e, g2) => (inl e, (s1, g2))
                  | (inr ctx, g2) =>
                      match build_prompt (file_path s1) ctx it with
                      | inl e => (inl e, (s1, g2))
                      | inr p =>
                          match tqdm_bar s1 with
                          | None => (inl AttributeError, (s1, g2))
                          | Some bar =>
                              (inr (Step i it cands ctx p),
                               (set_current_iteration (c + 1)
                                  (set_tqdm_bar
                                     (Tqdm (total bar) (count bar + 1)
                                           (closed bar)) s1), g2))
                          end
                      end
                  end
              end
          end
    end.
Proof.
  destruct w as [[fp k d i q T [c|] b] g]; [|reflexivity].
  unfold_M. simpl. case_bool_decide; [by destruct b|].
  destruct q as [|j q]; simpl.
  - destruct (random_shuffle g i) as [l g1]; simpl.
    destruct l as [|j l]; simpl; [done|].
    destruct (d !! j); simpl; [|done].
    destruct (random_sample g1 _ k) as [[e|ctx] g2]; simpl; [done|].
    destruct (build_prompt fp ctx _); simpl; [done|]. by destruct b.
  - destruct (d !! j); simpl; [|done].
    destruct (random_sample g _ k) as [[e|ctx] g2]; simpl; [done|].
    destruct (build_prompt fp ctx _); simpl; [done|]. by destruct b.
Qed.

(** *** The library call and the templates *)

Lemma random_sample_inr {A} g (population : list A) k xs g' :
  random_sample g population k = (inr xs, g') →
  0 ≤ k ≤ Z.of_nat (length population) ∧
  g' = (random_positions g (length population) (Z.to_nat k)).2 ∧
  Forall2 (λ j x, population !! j = Some x)
    (random_positions g (length population) (Z.to_nat k)).1 xs.
Proof.
  unfold random_sample. case_bool_decide as Hk; [|done].
  destruct (random_positions g _ _) as [js g1]; simpl.
  destruct (mapM _ js) as [ys|] eqn:Hm; [|done].
  intros [= <- <-]. by apply mapM_Some in Hm.
Qed.

Lemma random_sample_in_range {A} g (population : list A) k :
  0 ≤ k ≤ Z.of_nat (length population) →
  ∃ xs g', random_sample g population k = (inr xs, g').
Proof.
  intros Hk. unfold random_sample. rewrite bool_decide_true by done.
  pose proof (random_positions_lt g (length population) (Z.to_nat k)) as Hlt.
  destruct (random_positions g _ _) as [js g1]; simpl in *.
  destruct (mapM_is_Some_2 (λ j, population !! j) js) as [xs ->]; [|by eauto].
  eapply Forall_impl; [apply Hlt; lia|].
  intros j Hj. by apply lookup_lt_is_Some_2.
Qed.

Lemma random_sample_out_of_range {A} g (population : list A) k :
  ¬ (0 ≤ k ≤ Z.of_nat (length population)) →
  random_sample g population k = (inl ValueError, g).
Proof. intros Hk. unfold random_sample. by rewrite bool_decide_false. Qed.

Lemma random_sample_inl {A} g (population : list A) k e g' :
  random_sample g population k = (inl e, g') →
  e = ValueError ∧ g' = g ∧ ¬ (0 ≤ k ≤ Z.of_nat (length population)).
Proof.
  intros He. destruct (decide (0 ≤ k ≤ Z.of_nat (length population))) as [Hk|Hk].
  - destruct (random_sample_in_range g population k Hk) as (xs & g1 & Hs).
    congruence.
  - rewrite random_sample_out_of_range in He by done. by injection He as <- <-.
Qed.

Lemma comprehension_inr {A B} (f : A → exn + B) l ys :
  comprehension f l = inr ys ↔ Forall2 (λ x y, f x = inr y) l ys.
Proof.
  revert ys. induction l as [|x l IH]; intros ys; simpl.
  - split; [intros [= <-]; constructor | by inversion 1].
  - destruct (f x) as [e|y] eqn:Hx.
    + split; [done|]. inversion 1; congruence.
    + destruct (comprehension f l) as [e|zs].
      * split; [done|]. inversion 1 as [|???? _ Hl]; subst.
        apply IH in Hl. done.
      * split.
        -- intros [= <-]. constructor; [done|]. by apply IH.
        -- inversion 1 as [|? y' ? zs' Hy Hl]; subst.
           apply IH in Hl. congruence.
Qed.

Lemma comprehension_inl {A B} (f : A → exn + B) l e :
  comprehension f l = inl e → ∃ x, x ∈ l ∧ f x = inl e.
Proof.
  induction l as [|x l IH]; simpl; [done|].
  destruct (f x) as [e'|y] eqn:Hx.
  - intros [= <-]. exists x. split; [left|done].
  - destruct (comprehension f l) as [e'|zs]; [|done].
    intros [= <-]. destruct IH as (x' & Hin & Hx'); [done|].
    exists x'. split; [by right|done].
Qed.

(** The only exception the templates raise is [KeyError]. *)
Lemma build_prompt_inl fp context query e :
  build_prompt fp context query = inl e → e = KeyError.
Proof.
  unfold build_prompt, pair_line, pair_query, sentiment_line,
    sentiment_query, getitem.
  destruct (comprehension _ context) as [e'|lines] eqn:Hc.
  - intros [= <-]. apply comprehension_inl in Hc as (x & _ & Hx).
    destruct (str_contains "json" fp); repeat case_match; congruence.
  - destruct (str_contains "json" fp); repeat case_match; congruence.
Qed.

(** *** What a call leaves unchanged *)

Lemma refilled_cases w :
  (ids_queue w.1 ≠ [] ∧ refilled w = w) ∨
  (ids_queue w.1 = [] ∧
   refilled w =
     (set_ids_queue (random_shuffle w.2 (ids w.1)).1
        (set_ids (random_shuffle w.2 (ids w.1)).1 w.1),
      (random_shuffle w.2 (ids w.1)).2)).
Proof.
  destruct (decide (ids_queue w.1 = [])) as [Hq|Hq].
  - right. split; [done|]. by apply refilled_empty.
  - left. split; [done|]. by apply refilled_nonempty.
Qed.

Lemma refilled_frame w :
  file_path (refilled w).1 = file_path w.1 ∧
  context_size (refilled w).1 = context_size w.1 ∧
  data (refilled w).1 = data w.1 ∧
  dataset_size (refilled w).1 = dataset_size w.1 ∧
  current_iteration (refilled w).1 = current_iteration w.1 ∧
  tqdm_bar (refilled w).1 = tqdm_bar w.1.
Proof. by destruct (refilled_cases w) as [[_ ->]|[_ ->]]. Qed.

Lemma refilled_ids_perm w : ids (refilled w).1 ≡ₚ ids w.1.
Proof.
  destruct (refilled_cases w) as [[_ ->]|[_ ->]]; [done|].
  simpl. apply random_shuffle_perm.
Qed.

Lemma next_step_frame w :
  file_path (next_step w).2.1 = file_path w.1 ∧
  context_size (next_step w).2.1 = context_size w.1 ∧
  data (next_step w).2.1 = data w.1 ∧
  dataset_size (next_step w).2.1 = dataset_size w.1.
Proof.
  destruct (refilled_frame w) as (Hf & Hk & Hd & HT & _).
  rewrite next_step_eq. cbv zeta.
  repeat (case_match; simpl; try done).
Qed.

(** A call that ends at the end-of-sequence test (or before it) touches
    neither the queue, nor [ids], nor the generator. *)
Lemma next_step_stopped w :
  (∀ c, current_iteration w.1 = Some c → dataset_size w.1 ≤ c) →
  ids_queue (next_step w).2.1 = ids_queue w.1 ∧
  ids (next_step w).2.1 = ids w.1 ∧
  current_iteration (next_step w).2.1 = current_iteration w.1 ∧
  (next_step w).2.2 = w.2 ∧
  ∃ e, (next_step w).1 = inl e ∧ (e = StopIteration ∨ e = AttributeError).
Proof.
  intros Hstop. rewrite next_step_eq.
  destruct (current_iteration w.1) as [c|] eqn:Hc; [|by eauto 10].
  rewrite bool_decide_true by auto.
  destruct (tqdm_bar w.1); simpl; rewrite ?Hc; eauto 10.
Qed.

(** A call that gets past the end-of-sequence test pops the head of the
    refilled queue, whatever happens afterwards. *)
Lemma next_step_popped w c :
  current_iteration w.1 = Some c → c < dataset_size w.1 →
  ids_queue (next_step w).2.1 = tail (ids_queue (refilled w).1) ∧
  ids (next_step w).2.1 = ids (refilled w).1.
Proof.
  intros Hc Hlt. rewrite next_step_eq, Hc.
  rewrite bool_decide_false by lia. cbv zeta.
  destruct (ids_queue (refilled w).1) as [|i q'] eqn:Hq; simpl;
    [by rewrite Hq|].
  repeat (case_match; simpl; try done).
Qed.

(** *** A call that returns *)

Lemma next_step_inr w st w' :
  next_step w = (inr st, w') →
  ∃ c bar q',
    current_iteration w.1 = Some c ∧ c < dataset_size w.1 ∧
    tqdm_bar w.1 = Some bar ∧
    ids_queue (refilled w).1 = next_index st :: q' ∧
    data w.1 !! next_index st = Some (prediction_item st) ∧
    context_candidates st =
      filter (λ x, x ≠ prediction_item st) (data w.1) ∧
    random_sample (refilled w).2 (context_candidates st) (context_size w.1)
      = (inr (context_examples st), w'.2) ∧
    build_prompt (file_path w.1) (context_examples st) (prediction_item st)
      = inr (prompt st) ∧
    w'.1 = set_current_iteration (c + 1)
             (set_tqdm_bar (Tqdm (total bar) (count bar + 1) (closed bar))
                (set_ids_queue q' (refilled w).1)).
Proof.
  destruct (refilled_frame w) as (Hf & Hk & Hd & HT & Hc & Hb).
  rewrite next_step_eq. cbv zeta.
  destruct (current_iteration w.1) as [c|]; [|done].
  case_bool_decide as Hlt; [by destruct (tqdm_bar w.1)|].
  destruct (ids_queue (refilled w).1) as [|i q']; [done|]. simpl.
  rewrite Hd, Hk, Hf, Hb.
  destruct (data w.1 !! i) as [it|] eqn:Hit; [|done].
  destruct (random_sample _ _ _) as [[e|ctx] g2] eqn:Hs; [done|].
  destruct (build_prompt _ _ _) as [e|p] eqn:Hp; [done|].
  destruct (tqdm_bar w.1) as [bar|]; [|done].
  intros [= <- <-]. simpl. exists c, bar, q'.
  repeat split; try done. lia.
Qed.

Lemma next_method_eq w :
  __next__ w =
    (match (next_step w).1 with
     | inl e => inl e
     | inr st => inr (prompt st)
     end, (next_step w).2).
Proof.
  unfold __next__, fmap, M_fmap.
  by destruct (next_step w) as [[e|st] w'].
Qed.

Lemma next_method_inr w p w' :
  __next__ w = (inr p, w') ↔
  ∃ st, next_step w = (inr st, w') ∧ prompt st = p.
Proof.
  rewrite next_method_eq. destruct (next_step w) as [[e|st] w1]; simpl.
  - split; [done|]. by intros (st & ? & _).
  - split.
    + intros [= <- <-]. by exists st.
    + by intros (st' & [= <- <-] & <-).
Qed.

Lemma next_method_inl w e :
  (__next__ w).1 = inl e ↔ (next_step w).1 = inl e.
Proof.
  rewrite next_method_eq. simpl.
  destruct (next_step w).1 as [e'|st]; [|done].
  split; by intros [= ->].
Qed.

(** *** The invariant of the cycling queue *)

Lemma valid_init fp loaded k T g : valid (__init__ fp loaded k T g).1.
Proof.
  unfold __init__.
  pose proof (random_shuffle_perm g (seq 0 (length loaded))) as Hp.
  destruct (random_shuffle g _) as [l g']; simpl in *.
  split; simpl; [done|by exists []|by intros [? [=]]].
Qed.

Lemma valid_iter w : valid w.1 → valid (__iter__ w).2.1.
Proof. intros [Hi Hq Hb]. split; simpl; eauto. Qed.

Lemma valid_refilled w : valid w.1 → valid (refilled w).1.
Proof.
  intros [Hi Hq Hb].
  destruct (refilled_cases w) as [[_ ->]|[_ ->]]; [done|].
  pose proof (random_shuffle_perm w.2 (ids w.1)) as Hp.
  split; simpl; [by rewrite Hp| |done].
  exists []. simpl. by rewrite Hp.
Qed.

Lemma valid_pop s i q' :
  valid s → ids_queue s = i :: q' → valid (set_ids_queue q' s).
Proof.
  intros [Hi [used Hq] Hb] Hs. split; simpl; [done| |done].
  exists (used ++ [i]). rewrite <- app_assoc. simpl. by rewrite <- Hs.
Qed.

Lemma valid_next_step w : valid w.1 → valid (next_step w).2.1.
Proof.
  intros Hv. pose proof (valid_refilled w Hv) as Hr.
  rewrite next_step_eq. cbv zeta.
  destruct (current_iteration w.1) as [c|] eqn:Hc; [|done].
  case_bool_decide.
  { destruct (tqdm_bar w.1); [|done]. destruct Hv.
    split; simpl; eauto. }
  destruct (ids_queue (refilled w).1) as [|i q'] eqn:Hq; [done|].
  pose proof (valid_pop _ _ _ Hr Hq) as Hs.
  repeat (case_match; simpl; try done).
  destruct Hs. split; simpl; eauto.
Qed.

Lemma valid_do_call w c : valid w.1 → valid (do_call w c).1.
Proof.
  destruct c; simpl; [apply valid_iter|].
  rewrite next_method_eq. apply valid_next_step.
Qed.

Lemma valid_after calls : ∀ w, valid w.1 → valid (after calls w).1.
Proof.
  unfold after. induction calls as [|c calls IH]; intros w Hv; [done|].
  simpl. by apply IH, valid_do_call.
Qed.

Lemma after_frame calls : ∀ w,
  file_path (after calls w).1 = file_path w.1 ∧
  context_size (after calls w).1 = context_size w.1 ∧
  data (after calls w).1 = data w.1 ∧
  dataset_size (after calls w).1 = dataset_size w.1.
Proof.
  unfold after. induction calls as [|c calls IH]; intros w; [done|].
  simpl. destruct (IH (do_call w c)) as (-> & -> & -> & ->).
  destruct c; simpl; [done|].
  rewrite next_method_eq. apply next_step_frame.
Qed.

Lemma init_frame fp loaded k T g :
  file_path (__init__ fp loaded k T g).1 = fp ∧
  context_size (__init__ fp loaded k T g).1 = k ∧
  data (__init__ fp loaded k T g).1 = loaded ∧
  dataset_size (__init__ fp loaded k T g).1 = T.
Proof. unfold __init__. by destruct (random_shuffle g _). Qed.

(** Under the invariant every queued index is a position of the corpus,
    no index is queued twice, and a refilled queue of a non-empty corpus
    is not empty. *)
Lemma valid_queue_NoDup s : valid s → NoDup (ids_queue s).
Proof.
  intros [_ [used Hq] _].
  assert (NoDup (used ++ ids_queue s)) as Hn
    by (rewrite Hq; apply NoDup_seq).
  by apply NoDup_app in Hn as (_ & _ & ?).
Qed.

Lemma valid_queue_lookup s i :
  valid s → i ∈ ids_queue s → is_Some (data s !! i).
Proof.
  intros [_ [used Hq] _] Hi. apply lookup_lt_is_Some_2.
  assert (i ∈ seq 0 (length (data s))) as Hin
    by (rewrite <- Hq; apply elem_of_app; by right).
  apply elem_of_seq in Hin. lia.
Qed.

Lemma valid_refilled_nonempty w :
  valid w.1 → data w.1 ≠ [] → ids_queue (refilled w).1 ≠ [].
Proof.
  intros [Hi _ _] Hd.
  destruct (refilled_cases w) as [[Hq ->]|[_ ->]]; [done|]. simpl.
  pose proof (random_shuffle_perm w.2 (ids w.1)) as Hp.
  intros Hnil. rewrite Hnil in Hp. rewrite Hi in Hp.
  apply Permutation_length in Hp. rewrite length_seq in Hp.
  destruct (data w.1); simpl in *; done.
Qed.

End Step.

(** ** The cycling queue *)

Section Cycling.
Context `{Random G}.
Implicit Types (w : world (G:=G)) (g : G).

(** Calls that all return pop the refilled queue from its front, one index
    per call. *)
Lemma iterate_fifo n : ∀ w sts w',
  (n ≤ length (ids_queue (refilled w).1))%nat →
  iterate n w = (sts, None, w') →
  map next_index sts = take n (ids_queue (refilled w).1) ∧
  (n ≠ 0%nat → ids_queue w'.1 = drop n (ids_queue (refilled w).1)).
Proof.
  induction n as [|n IH]; intros w sts w' Hn; simpl.
  { intros [= <- <-]. by rewrite take_0. }
  destruct (next_step w) as [[e|st] w1] eqn:Hst; [done|].
  destruct (iterate n w1) as [[sts1 e1] w2] eqn:Hit.
  intros [= <- -> <-].
  apply next_step_inr in Hst
    as (c & bar & q' & _ & _ & _ & Hq & _ & _ & _ & _ & Hw1).
  rewrite Hq in *. simpl in Hn.
  assert (ids_queue w1.1 = q') as Hq1 by (by rewrite Hw1).
  destruct n as [|m].
  - simpl in Hit. injection Hit as <- <-. simpl. by rewrite take_0, drop_0.
  - rewrite <- Hq1 in Hn.
    assert (refilled w1 = w1) as Hr.
    { apply refilled_nonempty. destruct (ids_queue w1.1); simpl in *; [lia|done]. }
    destruct (IH w1 sts1 w2) as [Hm Hd]; [by rewrite Hr; lia|done|].
    rewrite Hr, Hq1 in *. simpl. split; [by rewrite Hm|].
    intros _. by apply Hd.
Qed.

(** C1: on a non-empty corpus, in every state reachable from construction,
    the queue is what is left of a permutation of the corpus indices; an
    empty queue is refilled with the shuffle of [ids], a permutation of all
    indices, before the pop; a call that gets past the end-of-sequence test
    pops the head of the (refilled) queue and uses it as the query index;
    and calls that return within a pass use the queued indices in queue
    order, without repeats, a full pass using every corpus index exactly
    once and emptying the queue (a full pass being one that starts with
    all [N] indices queued, as after construction and after a refill). *)
Theorem cycling_pass_fifo_once fp loaded k T g calls :
  loaded ≠ [] →
  let w := after calls (__init__ fp loaded k T g) in
  let q := ids_queue (refilled w).1 in
  (∃ used, used ++ ids_queue w.1 ≡ₚ seq 0 (length loaded)) ∧
  (ids_queue w.1 = [] →
     q = (random_shuffle w.2 (ids w.1)).1 ∧ q ≡ₚ seq 0 (length loaded)) ∧
  (ids_queue w.1 ≠ [] → q = ids_queue w.1) ∧
  (∀ c, current_iteration w.1 = Some c → c < T →
     ∃ i q', q = i :: q' ∧ ids_queue (__next__ w).2.1 = q' ∧
       ∀ st w', next_step w = (inr st, w') → next_index st = i) ∧
  (∀ n sts w', (n ≤ length q)%nat → iterate n w = (sts, None, w') →
     map next_index sts = take n q ∧ NoDup (map next_index sts) ∧
     (n = length q → ids_queue w'.1 = [])) ∧
  (length q = length loaded → ∀ sts w',
     iterate (length loaded) w = (sts, None, w') →
     map next_index sts ≡ₚ seq 0 (length loaded) ∧ ids_queue w'.1 = []).
Proof.
  intros Hne w q.
  destruct (init_frame fp loaded k T g) as (Hf0 & Hk0 & Hd0 & HT0).
  destruct (after_frame calls (__init__ fp loaded k T g))
    as (Hf & Hk & Hd & HT).
  fold w in Hf, Hk, Hd, HT. rewrite Hd0 in Hd. rewrite HT0 in HT.
  assert (valid w.1) as Hv by apply valid_after, valid_init.
  pose proof (valid_refilled w Hv) as Hvr.
  assert (q ≠ []) as Hq by (apply valid_refilled_nonempty; [done|by rewrite Hd]).
  assert (NoDup q) as Hnd by by apply valid_queue_NoDup.
  assert (ids_queue w.1 = [] →
          q = (random_shuffle w.2 (ids w.1)).1 ∧ q ≡ₚ seq 0 (length loaded))
    as Hfresh.
  { intros Hempty. unfold q. rewrite (refilled_empty w Hempty). simpl.
    split; [done|]. rewrite random_shuffle_perm.
    rewrite <- Hd. apply Hv. }
  assert (∀ n sts w', (n ≤ length q)%nat → iterate n w = (sts, None, w') →
     map next_index sts = take n q ∧ NoDup (map next_index sts) ∧
     (n = length q → ids_queue w'.1 = [])) as Hpass.
  { intros n sts w' Hn Hit.
    destruct (iterate_fifo n w sts w' Hn Hit) as [Hm Hdrop].
    split; [done|]. split.
    - rewrite Hm. eapply sublist_NoDup; [done|apply sublist_take].
    - intros ->. rewrite Hdrop; [by rewrite drop_all|].
      destruct q; simpl; [done|lia]. }
  split; [destruct Hv as [_ Hu _]; by rewrite Hd in Hu|].
  split; [done|].
  split; [intros Hq'; unfold q; by rewrite refilled_nonempty|].
  split; [|split; [done|]].
  - intros c Hc Hlt. destruct q as [|i q'] eqn:Heq; [done|].
    exists i, q'. split; [done|]. split.
    + rewrite next_method_eq. simpl.
      rewrite <- HT in Hlt.
      destruct (next_step_popped w c Hc Hlt) as [-> _].
      fold q. by rewrite Heq.
    + intros st w' Hst.
      apply next_step_inr in Hst as (_ & _ & q'' & _ & _ & _ & Hq'' & _).
      fold q in Hq''. congruence.
  - intros Hlen sts w' Hit.
    assert (q ≡ₚ seq 0 (length loaded)) as Hperm.
    { destruct Hvr as [_ [used Hu] _].
      destruct (refilled_frame w) as (_ & _ & Hdr & _).
      rewrite Hdr, Hd in Hu. fold q in Hu.
      pose proof (Permutation_length Hu) as Hl.
      rewrite length_app, length_seq in Hl.
      destruct used; [done|simpl in Hl; lia]. }
    destruct (Hpass (length loaded) sts w') as (Hm & _ & Hend);
      [lia|done|].
    split; [|by apply Hend].
    by rewrite Hm, take_ge by lia.
Qed.

End Cycling.

(** ** Drawing the context *)

Section Drawing.
Context `{Random G}.
Implicit Types (w : world (G:=G)) (g : G).

(** The outcome of a call that reaches the draw of line 90. *)
Lemma next_step_at_draw w c bar i q' it :
  current_iteration w.1 = Some c → c < dataset_size w.1 →
  tqdm_bar w.1 = Some bar →
  ids_queue (refilled w).1 = i :: q' →
  data w.1 !! i = Some it →
  let candidates := filter (λ x, x ≠ it) (data w.1) in
  (next_step w).1 =
    match (random_sample (refilled w).2 candidates (context_size w.1)).1 with
    | inl e => inl e
    | inr ctx =>
        match build_prompt (file_path w.1) ctx it with
        | inl e => inl e
        | inr p => inr (Step i it candidates ctx p)
        end
    end.
Proof.
  intros Hc Hlt Hbar Hq Hit candidates.
  destruct (refilled_frame w) as (Hf & Hk & Hd & HT & _ & Hb).
  rewrite next_step_eq, Hc, bool_decide_false by lia. cbv zeta.
  rewrite Hq. simpl. rewrite Hd, Hk, Hf, Hb, Hit, Hbar. fold candidates.
  destruct (random_sample _ candidates _) as [[e|ctx] g2]; simpl; [done|].
  by destruct (build_prompt _ ctx it).
Qed.

Lemma comprehension_total {A B} (f : A → exn + B) l :
  Forall (λ x, ∃ y, f x = inr y) l → ∃ ys, comprehension f l = inr ys.
Proof.
  induction 1 as [|x l [y Hy] _ [ys IH]]; simpl; [by eauto|].
  rewrite Hy, IH. by eauto.
Qed.

Lemma build_prompt_well_shaped fp context query :
  Forall (well_shaped fp) context → well_shaped fp query →
  ∃ p, build_prompt fp context query = inr p.
Proof.
  unfold well_shaped, build_prompt. intros Hctx Hq.
  destruct (str_contains "json" fp).
  - destruct (comprehension_total pair_line context) as [lines ->].
    { eapply Forall_impl; [done|]. intros x [[i Hi] [o Ho]].
      unfold pair_line, getitem. rewrite Hi, Ho. by eauto. }
    destruct Hq as [[i Hi] _]. unfold pair_query, getitem. rewrite Hi.
    by eauto.
  - destruct (comprehension_total sentiment_line context) as [lines ->].
    { eapply Forall_impl; [done|]. intros x [[i Hi] [o Ho]].
      unfold sentiment_line, getitem. rewrite Hi, Ho. by eauto. }
    destruct Hq as [[i Hi] _]. unfold sentiment_query, getitem. rewrite Hi.
    by eauto.
Qed.

(** In a corpus without duplicates, taking the query away leaves all the
    other records. *)
Lemma length_filter_ne (l : list item) (x : item) :
  NoDup l → x ∈ l →
  S (length (filter (λ y, y ≠ x) l)) = length l.
Proof.
  induction 1 as [|y l Hy Hnd IH]; [by inversion 1|].
  rewrite filter_cons. intros [->|Hin]%elem_of_cons.
  - rewrite decide_False by (by intros ?). simpl. f_equal.
    clear IH. induction l as [|z l IH]; [done|].
    apply not_elem_of_cons in Hy as [Hne Hy].
    apply NoDup_cons in Hnd as [_ Hnd].
    rewrite filter_cons, decide_True by done. simpl. f_equal. by apply IH.
  - rewrite decide_True by (intros ->; done). simpl. f_equal. by apply IH.
Qed.

Lemma sample_drawn_positions g (candidates : list item) k ctx g' :
  random_sample g candidates k = (inr ctx, g') →
  ∃ js, NoDup js ∧ Z.of_nat (length js) = k ∧
    js = (random_positions g (length candidates) (Z.to_nat k)).1 ∧
    Forall2 (λ j x, candidates !! j = Some x) js ctx.
Proof.
  intros (Hk & _ & Hf)%random_sample_inr.
  exists (random_positions g (length candidates) (Z.to_nat k)).1.
  split; [apply random_positions_NoDup; lia|].
  split; [rewrite random_positions_length; lia|done].
Qed.

(** C3: in a call that returns, the query is the corpus record at the
    popped index, the context candidates are exactly the corpus records
    that differ from the query as whole records (every copy of a record
    equal to the query is left out, every other record stays, copies
    included), and no drawn context record equals the query. *)
Theorem candidates_exclude_query_by_value w p w' :
  __next__ w = (inr p, w') →
  ∃ st, next_step w = (inr st, w') ∧ prompt st = p ∧
    data w.1 !! next_index st = Some (prediction_item st) ∧
    context_candidates st =
      filter (λ x, x ≠ prediction_item st) (data w.1) ∧
    (∀ x, x ∈ context_candidates st ↔
          x ∈ data w.1 ∧ x ≠ prediction_item st) ∧
    (∀ x, x ∈ context_examples st →
          x ∈ context_candidates st ∧ x ≠ prediction_item st).
Proof.
  intros (st & Hst & Hp)%next_method_inr. exists st.
  split; [done|]. split; [done|].
  apply next_step_inr in Hst
    as (c & bar & q' & _ & _ & _ & _ & Hit & Hcand & Hs & _ & _).
  split; [done|]. split; [done|].
  assert (∀ x, x ∈ context_candidates st ↔
               x ∈ data w.1 ∧ x ≠ prediction_item st) as Hiff.
  { intros x. rewrite Hcand, list_elem_of_filter. tauto. }
  split; [done|].
  intros x Hx. apply random_sample_inr in Hs as (_ & _ & Hf).
  apply list_elem_of_lookup in Hx as [n Hn].
  destruct (Forall2_lookup_r _ _ _ _ _ Hf Hn) as (j & _ & Hj).
  apply list_elem_of_lookup_2 in Hj.
  split; [done|]. by apply Hiff.
Qed.

(** C4: when a call on a non-empty corpus with a context size [k >= 0]
    gets past the end-of-sequence test, the context is drawn from the
    candidates at [k] pairwise different positions; the call raises the
    sampling error exactly when there are fewer than [k] candidates (and,
    on records that have their fields, raises at all exactly then); on a
    corpus of pairwise different records a context of [N-1] is drawn and a
    context of [N] is refused. *)
Theorem draw_without_replacement fp loaded k T g calls c :
  let w := after calls (__init__ fp loaded k T g) in
  loaded ≠ [] → 0 ≤ k →
  current_iteration w.1 = Some c → c < T →
  ∃ i it,
    head (ids_queue (refilled w).1) = Some i ∧ loaded !! i = Some it ∧
    let candidates := filter (λ x, x ≠ it) loaded in
    ((__next__ w).1 = inl ValueError ↔ Z.of_nat (length candidates) < k) ∧
    (Forall (well_shaped fp) loaded →
       (∃ e, (__next__ w).1 = inl e) ↔ Z.of_nat (length candidates) < k) ∧
    (∀ st w', next_step w = (inr st, w') →
       context_candidates st = candidates ∧
       ∃ js, NoDup js ∧ Z.of_nat (length js) = k ∧
         Forall2 (λ j x, candidates !! j = Some x) js (context_examples st)) ∧
    (NoDup loaded →
       (k = Z.of_nat (length loaded) - 1 →
          (__next__ w).1 ≠ inl ValueError ∧
          (Forall (well_shaped fp) loaded → ∃ p, (__next__ w).1 = inr p)) ∧
       (k = Z.of_nat (length loaded) → (__next__ w).1 = inl ValueError)).
Proof.
  intros w Hne Hk Hc Hlt.
  destruct (init_frame fp loaded k T g) as (Hf0 & Hk0 & Hd0 & HT0).
  destruct (after_frame calls (__init__ fp loaded k T g))
    as (Hf & Hks & Hd & HT).
  fold w in Hf, Hks, Hd, HT. rewrite Hf0 in Hf. rewrite Hk0 in Hks.
  rewrite Hd0 in Hd. rewrite HT0 in HT.
  assert (valid w.1) as Hv by apply valid_after, valid_init.
  pose proof (valid_refilled w Hv) as Hvr.
  destruct (valid_bar _ Hv) as [bar Hbar]; [by eauto|].
  destruct (ids_queue (refilled w).1) as [|i q'] eqn:Hq.
  { by destruct (valid_refilled_nonempty w Hv); [rewrite Hd|]. }
  destruct (valid_queue_lookup _ i Hvr) as [it Hit]; [rewrite Hq; by left|].
  destruct (refilled_frame w) as (_ & _ & Hdr & _).
  rewrite Hdr in Hit. exists i, it. split; [done|].
  assert (loaded !! i = Some it) as Hit' by (by rewrite <- Hd).
  assert (it ∈ loaded) as Hin by (by eapply list_elem_of_lookup_2).
  split; [done|]. intros candidates.
  assert (c < dataset_size w.1) as Hlt' by lia.
  pose proof (next_step_at_draw w c bar i q' it Hc Hlt' Hbar Hq Hit) as Hout.
  cbv zeta in Hout. rewrite Hd, Hks, Hf in Hout. fold candidates in Hout.
  assert (∀ ctx, (random_sample (refilled w).2 candidates k).1 = inr ctx →
                 Forall (well_shaped fp) loaded →
                 ∃ p, build_prompt fp ctx it = inr p) as Hshape.
  { intros ctx Hs Hall.
    destruct (random_sample _ candidates k) as [r g2] eqn:Hrs.
    simpl in Hs. subst r. apply random_sample_inr in Hrs as (_ & _ & Hf2).
    rewrite Forall_forall in Hall.
    apply build_prompt_well_shaped.
    - apply Forall_forall. intros x [n Hn]%list_elem_of_lookup.
      destruct (Forall2_lookup_r _ _ _ _ _ Hf2 Hn) as (j & _ & Hj).
      apply list_elem_of_lookup_2, list_elem_of_filter in Hj as [_ Hj].
      by apply Hall.
    - by apply Hall. }
  assert ((__next__ w).1 = inl ValueError ↔ Z.of_nat (length candidates) < k)
    as Hiff.
  { rewrite next_method_eq. simpl. rewrite Hout.
    destruct (random_sample _ candidates k) as [[e|ctx] g2] eqn:Hrs; simpl.
    - apply random_sample_inl in Hrs as (-> & _ & Hr).
      split; [intros _; lia|done].
    - apply random_sample_inr in Hrs as (Hr & _ & _).
      split; [|lia].
      destruct (build_prompt fp ctx it) as [e|p] eqn:Hp; [|done].
      apply build_prompt_inl in Hp as ->. done. }
  split; [done|]. split; [|split].
  - intros Hall. split; [|intros Hsmall].
    + intros [e He]. rewrite next_method_eq in He. simpl in He.
      rewrite Hout in He.
      destruct (random_sample _ candidates k) as [[e'|ctx] g2] eqn:Hrs;
        simpl in *.
      * apply random_sample_inl in Hrs as (_ & _ & Hr). lia.
      * destruct (Hshape ctx eq_refl Hall) as [p Hp]. by rewrite Hp in He.
    + exists ValueError. by apply Hiff.
  - intros st w' Hst.
    assert ((next_step w).1 = inr st) as Hst1 by by rewrite Hst.
    rewrite Hout in Hst1.
    destruct (random_sample _ candidates k) as [[e|ctx] g2] eqn:Hrs;
      simpl in Hst1; [done|].
    destruct (build_prompt fp ctx it); [done|]. injection Hst1 as <-. simpl.
    split; [done|].
    apply sample_drawn_positions in Hrs as (js & ? & ? & _ & ?). by eauto.
  - intros Hnd.
    assert (S (length candidates) = length loaded) as Hlen.
    { by apply length_filter_ne. }
    split.
    + intros ->. split; [rewrite Hiff; lia|]. intros Hall.
      rewrite next_method_eq. simpl. rewrite Hout.
      destruct (random_sample_in_range (refilled w).2 candidates
                  (Z.of_nat (length loaded) - 1))
        as (ctx & g2 & Hrs); [lia|].
      rewrite Hrs. simpl.
      destruct (Hshape ctx) as [p Hp]; [by rewrite Hrs|done|].
      rewrite Hp. by eauto.
    + intros ->. apply Hiff. lia.
Qed.

End Drawing.

(** ** The prompt *)

Section Formatting.
Context `{Random G}.
Implicit Types (w : world (G:=G)) (g : G).

Lemma append_assoc (a b c : string) : (a +:+ b) +:+ c = a +:+ b +:+ c.
Proof.
  induction a as [|x a IH]; [done|].
  change (String x ((a +:+ b) +:+ c) = String x (a +:+ b +:+ c)).
  by rewrite IH.
Qed.

(** Joining the context lines and then appending a line feed and the query
    line is joining all the lines, as soon as there is a context line. *)
Lemma join_snoc sep (lines : list string) (last : string) :
  lines ≠ [] → join sep (lines ++ [last]) = join sep lines +:+ sep +:+ last.
Proof.
  unfold join. induction lines as [|x lines IH]; [done|]. intros _.
  destruct lines as [|y lines]; [done|].
  change (String.concat sep ((x :: y :: lines) ++ [last]))
    with (x +:+ sep +:+ String.concat sep ((y :: lines) ++ [last])).
  change (String.concat sep (x :: y :: lines))
    with (x +:+ sep +:+ String.concat sep (y :: lines)).
  rewrite IH by done. by rewrite !append_assoc.
Qed.

Lemma pair_line_inr it line :
  pair_line it = inr line →
  ∃ i o, it !! "input" = Some i ∧ it !! "output" = Some o ∧
         line = py_str i +:+ ": " +:+ py_str o.
Proof.
  unfold pair_line, getitem.
  destruct (it !! "input") as [i|]; [|done].
  destruct (it !! "output") as [o|]; [|done].
  intros [= <-]. by eauto.
Qed.

Lemma sentiment_line_inr it line :
  sentiment_line it = inr line →
  ∃ s l, it !! "sentence" = Some s ∧ it !! "label" = Some l ∧
         line = "Sentence: " +:+ py_str s +:+ " Answer: " +:+ py_str l.
Proof.
  unfold sentiment_line, getitem.
  destruct (it !! "sentence") as [s|]; [|done].
  destruct (it !! "label") as [l|]; [|done].
  intros [= <-]. by eauto.
Qed.

(** C5: the prompt a call returns is made of one line per drawn context
    record, in the order of the draw, joined by line feeds, then a line
    feed and the query line, which stops after its separator: the pair
    template gives the lines [input: output] and the query line
    [input: ], the sentiment template the lines
    [Sentence: sentence Answer: label] and the query line
    [Sentence: sentence Answer: ]; there are as many context lines as the
    context size [k], and for [k > 0] the prompt is the join of these
    [k + 1] lines. *)
Theorem prompt_is_context_lines_then_query w p w' :
  __next__ w = (inr p, w') →
  ∃ st lines last,
    next_step w = (inr st, w') ∧ prompt st = p ∧
    Forall2 (λ j it, context_candidates st !! j = Some it)
      (random_positions (refilled w).2 (length (context_candidates st))
         (Z.to_nat (context_size w.1))).1
      (context_examples st) ∧
    Z.of_nat (length (context_examples st)) = context_size w.1 ∧
    length lines = length (context_examples st) ∧
    p = join nl lines +:+ nl +:+ last ∧
    (0 < context_size w.1 → p = join nl (lines ++ [last])) ∧
    if str_contains "json" (file_path w.1) then
      Forall2 (λ it line, ∃ i o,
                 it !! "input" = Some i ∧ it !! "output" = Some o ∧
                 line = py_str i +:+ ": " +:+ py_str o)
        (context_examples st) lines ∧
      ∃ i, prediction_item st !! "input" = Some i ∧
           last = py_str i +:+ ": "
    else
      Forall2 (λ it line, ∃ s l,
                 it !! "sentence" = Some s ∧ it !! "label" = Some l ∧
                 line = "Sentence: " +:+ py_str s +:+ " Answer: "
                        +:+ py_str l)
        (context_examples st) lines ∧
      ∃ s, prediction_item st !! "sentence" = Some s ∧
           last = "Sentence: " +:+ py_str s +:+ " Answer: ".
Proof.
  intros (st & Hst & Hp)%next_method_inr.
  pose proof Hst as Hinv.
  apply next_step_inr in Hinv
    as (c & bar & q' & _ & _ & _ & _ & _ & _ & Hs & Hb & _).
  apply sample_drawn_positions in Hs as (js & _ & Hlen & -> & Hdraw).
  pose proof (Forall2_length _ _ _ Hdraw) as Hlen2.
  assert (∃ lines last,
    prompt st = join nl lines +:+ nl +:+ last ∧
    length lines = length (context_examples st) ∧
    if str_contains "json" (file_path w.1) then
      Forall2 (λ it line, ∃ i o,
                 it !! "input" = Some i ∧ it !! "output" = Some o ∧
                 line = py_str i +:+ ": " +:+ py_str o)
        (context_examples st) lines ∧
      ∃ i, prediction_item st !! "input" = Some i ∧
           last = py_str i +:+ ": "
    else
      Forall2 (λ it line, ∃ s l,
                 it !! "sentence" = Some s ∧ it !! "label" = Some l ∧
                 line = "Sentence: " +:+ py_str s +:+ " Answer: "
                        +:+ py_str l)
        (context_examples st) lines ∧
      ∃ s, prediction_item st !! "sentence" = Some s ∧
           last = "Sentence: " +:+ py_str s +:+ " Answer: ")
    as (lines & last & Heq & Hll & Hshape).
  { unfold build_prompt in Hb.
    destruct (str_contains "json" (file_path w.1)).
    - destruct (comprehension pair_line _) as [e|lines] eqn:Hc; [done|].
      apply comprehension_inr in Hc.
      unfold pair_query, getitem in Hb.
      destruct (prediction_item st !! "input") as [i|] eqn:Hi; [|done].
      injection Hb as Hb. exists lines, (py_str i +:+ ": ").
      split; [done|]. split; [symmetry; by eapply Forall2_length|].
      split; [|by eauto].
      eapply Forall2_impl; [done|]. intros it line. apply pair_line_inr.
    - destruct (comprehension sentiment_line _) as [e|lines] eqn:Hc; [done|].
      apply comprehension_inr in Hc.
      unfold sentiment_query, getitem in Hb.
      destruct (prediction_item st !! "sentence") as [s|] eqn:Hi; [|done].
      injection Hb as Hb.
      exists lines, ("Sentence: " +:+ py_str s +:+ " Answer: ").
      split; [done|]. split; [symmetry; by eapply Forall2_length|].
      split; [|by eauto].
      eapply Forall2_impl; [done|]. intros it line.
      apply sentiment_line_inr. }
  exists st, lines, last. rewrite <- Hp.
  split; [done|]. split; [done|]. split; [done|].
  split; [lia|]. split; [done|]. split; [done|]. split; [|done].
  intros Hpos. rewrite join_snoc; [done|].
  destruct lines; simpl in *; [lia|done].
Qed.

End Formatting.

(** ** Failures, restarts and construction *)

Section Lifecycle.
Context `{Random G}.
Implicit Types (w : world (G:=G)) (g : G).

(** Where each exception of a call comes from. *)
Lemma next_step_inl_cases w e :
  (next_step w).1 = inl e →
  match e with
  | StopIteration =>
      ∃ c, current_iteration w.1 = Some c ∧ dataset_size w.1 ≤ c
  | AttributeError =>
      current_iteration w.1 = None ∨ tqdm_bar w.1 = None
  | IndexError =>
      ∃ c, current_iteration w.1 = Some c ∧ c < dataset_size w.1
  | KeyError | ValueError =>
      ∃ c i, current_iteration w.1 = Some c ∧ c < dataset_size w.1 ∧
             ids_queue (refilled w).1 = i :: ids_queue (next_step w).2.1
  end.
Proof.
  destruct (refilled_frame w) as (Hf & Hk & Hd & HT & Hc & Hb).
  rewrite next_step_eq. cbv zeta.
  destruct (current_iteration w.1) as [c|]; [|intros [= <-]; by left].
  case_bool_decide as Hlt.
  { destruct (tqdm_bar w.1); intros [= <-]; [by eauto|by right]. }
  assert (c < dataset_size w.1) as Hlt' by lia.
  destruct (ids_queue (refilled w).1) as [|i q']; [intros [= <-]; by eauto|].
  simpl. destruct (data (refilled w).1 !! i) as [it|];
    [|intros [= <-]; by eauto].
  destruct (random_sample _ _ _) as [[e'|ctx] g2] eqn:Hs; simpl.
  { apply random_sample_inl in Hs as (-> & _ & _). intros [= <-]. by eauto. }
  destruct (build_prompt _ _ _) as [e'|p] eqn:Hp; simpl.
  { apply build_prompt_inl in Hp as ->. intros [= <-]. by eauto. }
  destruct (tqdm_bar (refilled w).1) eqn:Hbar; [done|].
  rewrite Hb in Hbar. intros [= <-]. by right.
Qed.

(** Construction copies the queue from [ids] before [ids] is shuffled:
    whatever the state of the generator, the queue of the first pass is the
    corpus order [0 .. N-1], and the shuffle only reaches [ids]. *)
Lemma init_queue_eq fp loaded k T g :
  let w := __init__ fp loaded k T g in
  ids_queue w.1 = seq 0 (length loaded) ∧
  ids w.1 = (random_shuffle g (seq 0 (length loaded))).1 ∧
  w.2 = (random_shuffle g (seq 0 (length loaded))).2.
Proof. unfold __init__. by destruct (random_shuffle g _). Qed.

(** C6, as the code has it: a call that signals the end of the sequence
    leaves the queue, [ids] and the generator as they were; a call that
    fails at the draw ([ValueError]) or in a template ([KeyError]) has
    already popped its query index, so the queue it leaves is the refilled
    queue without its head. *)
Theorem failed_step_keeps_or_pops w e :
  (__next__ w).1 = inl e →
  (e = StopIteration →
     ids_queue (__next__ w).2.1 = ids_queue w.1 ∧
     ids (__next__ w).2.1 = ids w.1 ∧
     (__next__ w).2.2 = w.2) ∧
  (e = ValueError ∨ e = KeyError →
     ∃ i, ids_queue (refilled w).1 = i :: ids_queue (__next__ w).2.1).
Proof.
  intros He'%next_method_inl%next_step_inl_cases.
  rewrite next_method_eq. simpl. split.
  - intros ->. destruct He' as (c & Hc & Hle).
    destruct (next_step_stopped w) as (? & ? & _ & ? & _); [|done].
    intros c' Hc'. congruence.
  - intros [->| ->]; destruct He' as (c & i & _ & _ & Hq); by eauto.
Qed.

(** C7, as the code has it: a target count that is zero or negative makes
    the first call signal the normal end of the sequence; an empty corpus
    is accepted by the constructor, and with a positive target count the
    first call raises [IndexError] when it pops the empty queue. *)
Theorem first_step_of_degenerate_loader fp loaded k T g :
  let w := (__iter__ (__init__ fp loaded k T g)).2 in
  (T ≤ 0 → (__next__ w).1 = inl StopIteration) ∧
  (0 < T → loaded = [] → (__next__ w).1 = inl IndexError).
Proof.
  intros w.
  assert (current_iteration w.1 = Some 0 ∧ dataset_size w.1 = T ∧
          data w.1 = loaded ∧ is_Some (tqdm_bar w.1)) as (Hc & HT & Hd & Hb).
  { unfold w, __init__. destruct (random_shuffle g _). simpl. by eauto. }
  assert (valid w.1) as Hv by apply valid_iter, valid_init.
  clearbody w.
  rewrite next_method_eq, next_step_eq, Hc, HT. simpl. split.
  - intros Hle. rewrite bool_decide_true by done. by destruct Hb as [b ->].
  - intros Hpos ->. rewrite bool_decide_false by lia.
    destruct (valid_refilled w Hv) as [_ [used Hq] _].
    destruct (refilled_frame w) as (_ & _ & Hdr & _).
    rewrite Hdr, Hd in Hq. simpl in Hq.
    apply Permutation_nil_r, app_eq_nil in Hq as [_ ->]. done.
Qed.

(** C8, as the code has it: starting an iteration sets the counter to 0
    and makes a new progress bar; the queue, [ids], the corpus, the
    parameters and the generator stay as they are. *)
Theorem iter_resets_counter_only w :
  (__iter__ w).1 = inr tt ∧
  current_iteration (__iter__ w).2.1 = Some 0 ∧
  tqdm_bar (__iter__ w).2.1 = Some (Tqdm (dataset_size w.1) 0 false) ∧
  ids_queue (__iter__ w).2.1 = ids_queue w.1 ∧
  ids (__iter__ w).2.1 = ids w.1 ∧
  data (__iter__ w).2.1 = data w.1 ∧
  dataset_size (__iter__ w).2.1 = dataset_size w.1 ∧
  context_size (__iter__ w).2.1 = context_size w.1 ∧
  file_path (__iter__ w).2.1 = file_path w.1 ∧
  (__iter__ w).2.2 = w.2.
Proof. by repeat split. Qed.

(** C10: a constructed loader has neither the counter nor the progress
    bar; a call of [__next__] on it raises [AttributeError] and changes
    nothing, however often it is repeated; [__iter__] creates both
    attributes, and after it [__next__] does not raise [AttributeError]. *)
Theorem next_before_iter_raises fp loaded k T g :
  let w := __init__ fp loaded k T g in
  current_iteration w.1 = None ∧ tqdm_bar w.1 = None ∧
  __next__ w = (inl AttributeError, w) ∧
  (∀ n, after (replicate n CallNext) w = w) ∧
  current_iteration (__iter__ w).2.1 = Some 0 ∧
  tqdm_bar (__iter__ w).2.1 = Some (Tqdm T 0 false) ∧
  (__next__ (__iter__ w).2).1 ≠ inl AttributeError.
Proof.
  intros w.
  assert (current_iteration w.1 = None ∧ tqdm_bar w.1 = None ∧
          dataset_size w.1 = T) as (Hc & Hb & HT).
  { unfold w, __init__. by destruct (random_shuffle g _). }
  clearbody w.
  assert (__next__ w = (inl AttributeError, w)) as Hnext.
  { by rewrite next_method_eq, next_step_eq, Hc. }
  split; [done|]. split; [done|]. split; [done|]. split.
  { induction n as [|n IH]; [done|]. unfold after in *. simpl.
    by rewrite Hnext. }
  split; [done|]. split; [simpl; by rewrite HT|].
  intros He%next_method_inl%next_step_inl_cases. by destruct He.
Qed.

End Lifecycle.

(** ** The end of the loop *)

Section Termination.
Context `{Random G}.
Implicit Types (w : world (G:=G)) (g : G).

(** The loop ends: with the counter at [c], more than [T - c] calls reach
    an exception. *)
Lemma iterate_ends n : ∀ w,
  (∀ c, current_iteration w.1 = Some c →
        (Z.to_nat (dataset_size w.1 - c) < n)%nat) →
  (0 < n)%nat →
  ∃ e, (iterate n w).1.2 = Some e.
Proof.
  induction n as [|n IH]; intros w Hfuel Hn; [lia|]. simpl.
  destruct (next_step w) as [[e|st] w1] eqn:Hst; [by eauto|].
  apply next_step_inr in Hst
    as (c & bar & q' & Hc & Hlt & _ & _ & _ & _ & _ & _ & Hw1).
  destruct (refilled_frame w) as (_ & _ & _ & HT & _).
  specialize (Hfuel c Hc).
  destruct (IH w1) as [e He].
  - rewrite Hw1. simpl. intros c' [= <-]. rewrite HT. lia.
  - lia.
  - destruct (iterate n w1) as [[sts e'] w2]. simpl in *. by eauto.
Qed.

(** Once the loop has ended, more fuel changes nothing. *)
Lemma iterate_more_fuel n : ∀ m w,
  (iterate n w).1.2 ≠ None → (n ≤ m)%nat → iterate m w = iterate n w.
Proof.
  induction n as [|n IH]; intros m w Hend Hm; [done|].
  destruct m as [|m]; [lia|]. simpl in *.
  destruct (next_step w) as [[e|st] w1]; [done|].
  specialize (IH m w1).
  destruct (iterate n w1) as [[sts e'] w2]. simpl in *.
  rewrite IH; [done|done|lia].
Qed.

(** The loop writes neither the corpus nor the parameters. *)
Lemma iterate_frame n : ∀ w,
  file_path (iterate n w).2.1 = file_path w.1 ∧
  context_size (iterate n w).2.1 = context_size w.1 ∧
  data (iterate n w).2.1 = data w.1 ∧
  dataset_size (iterate n w).2.1 = dataset_size w.1.
Proof.
  induction n as [|n IH]; intros w; [done|]. simpl.
  pose proof (next_step_frame w) as Hw.
  destruct (next_step w) as [[e|st] w1]; [done|].
  specialize (IH w1). destruct (iterate n w1) as [[sts e'] w2].
  simpl in *. destruct IH as (-> & -> & -> & ->). done.
Qed.

(** The loop returns no more prompts than the counter leaves room for. *)
Lemma iterate_length_le n : ∀ w,
  (length (iterate n w).1.1
   ≤ match current_iteration w.1 with
     | Some c => Z.to_nat (dataset_size w.1 - c)
     | None => 0
     end)%nat.
Proof.
  induction n as [|n IH]; intros w; [simpl; lia|]. simpl.
  destruct (next_step w) as [[e|st] w1] eqn:Hst; [simpl; lia|].
  apply next_step_inr in Hst
    as (c & bar & q' & Hc & Hlt & _ & _ & _ & _ & _ & _ & Hw1).
  destruct (refilled_frame w) as (_ & _ & _ & HT & _).
  specialize (IH w1). rewrite Hw1 in IH. simpl in IH. rewrite HT in IH.
  destruct (iterate n w1) as [[sts e'] w2]. simpl in *. rewrite Hc. lia.
Qed.

(** X13: iteration is bounded by the target count.  Whatever the corpus,
    the context size and the target count [T], looping over a constructed
    loader with room for more than [T] calls reaches a call that raises
    ([StopIteration] or an error), at most [T] prompts (none when [T] is
    negative) are returned before it, and the outcome is the one of the
    [T + 1] calls of [run]: calls allowed beyond that are never made. *)
Theorem iteration_ends_within_target fp loaded k T g n :
  (Z.to_nat T < n)%nat →
  let r := iterate n (__iter__ (__init__ fp loaded k T g)).2 in
  (∃ e, r.1.2 = Some e) ∧
  (length r.1.1 ≤ Z.to_nat T)%nat ∧
  r = run fp loaded k T g.
Proof.
  intros Hn r. unfold run.
  set (w := (__iter__ (__init__ fp loaded k T g)).2) in *.
  assert (current_iteration w.1 = Some 0 ∧ dataset_size w.1 = T)
    as (Hc & HT).
  { unfold w, __init__. by destruct (random_shuffle g _). }
  clearbody w.
  assert (∀ m, (Z.to_nat T < m)%nat → ∃ e, (iterate m w).1.2 = Some e)
    as Hends.
  { intros m Hm. apply iterate_ends; [|lia]. intros c. rewrite Hc, HT.
    intros [= <-]. by rewrite Z.sub_0_r. }
  split; [by apply Hends|]. split.
  - pose proof (iterate_length_le n w) as Hlen.
    rewrite Hc, HT, Z.sub_0_r in Hlen. exact Hlen.
  - apply iterate_more_fuel; [|lia].
    destruct (Hends (S (Z.to_nat T))) as [e ->]; [lia|done].
Qed.

End Termination.

(** ** The antonym scenario, run on the concrete generator *)

(** A loader on the three antonym pairs with a context of 2 and a target of
    10 prompts, the generator seeded with 7. *)
Definition fresh : world (G:=N) := __init__ "a.json" antonyms 2 10 7%N.

(** The same loader once [iter] was called on it. *)
Definition started : world (G:=N) := after [CallIter] fresh.

(** ... at the end of its first pass, the queue empty. *)
Definition pass_done : world (G:=N) :=
  after [CallIter; CallNext; CallNext; CallNext] fresh.

(** ... and restarted after one prompt. *)
Definition restarted : world (G:=N) :=
  after [CallIter; CallNext; CallIter] fresh.

(** A loader asked for more context than the corpus can give. *)
Definition oversized : world (G:=N) :=
  after [CallIter] (__init__ "a.json" antonyms 5 3 7%N).

(** A loader with a negative target count, and one with an empty corpus. *)
Definition negative_target : world (G:=N) :=
  (__iter__ (__init__ "a.json" antonyms 2 (-1) 7%N)).2.

Definition empty_corpus : world (G:=N) :=
  (__iter__ (__init__ "a.json" [] 2 3 7%N)).2.

(** The first prompt of [started]. *)
Definition first_prompt : string :=
  "up: down" +:+ nl +:+ "big: small" +:+ nl +:+ "hot: ".

Lemma antonyms_NoDup : NoDup antonyms.
Proof. apply (bool_decide_unpack _). vm_compute. exact I. Qed.

Lemma antonyms_well_shaped : Forall (well_shaped "a.json") antonyms.
Proof.
  unfold antonyms. repeat apply Forall_cons_2; [..|apply Forall_nil_2];
    vm_compute; split; eexists; reflexivity.
Qed.

Lemma cycling_pass_fifo_once_witness :
  antonyms ≠ [] ∧ ids_queue pass_done.1 = [] ∧
  ∃ sts w', iterate 3 pass_done = (sts, None, w') ∧
            map next_index sts ≡ₚ seq 0 3 ∧ ids_queue w'.1 = [].
Proof.
  split; [done|]. split; [vm_compute; reflexivity|].
  eexists _, _. split; [vm_compute; reflexivity|].
  destruct (cycling_pass_fifo_once "a.json" antonyms 2 10 7%N
              [CallIter; CallNext; CallNext; CallNext])
    as (_ & _ & _ & _ & _ & Hpass); [done|].
  apply Hpass; vm_compute; reflexivity.
Defined.

Lemma candidates_exclude_query_by_value_witness :
  __next__ started = (inr first_prompt, (__next__ started).2) ∧
  ∃ st, prompt st = first_prompt ∧
        ∀ x, x ∈ context_examples st →
             x ∈ context_candidates st ∧ x ≠ prediction_item st.
Proof.
  split; [vm_compute; reflexivity|].
  destruct (candidates_exclude_query_by_value started first_prompt
              (__next__ started).2)
    as (st & _ & Hp & _ & _ & _ & Hctx); [vm_compute; reflexivity|].
  by exists st.
Defined.

Lemma draw_without_replacement_witness :
  antonyms ≠ [] ∧ 0 ≤ 2 ∧ current_iteration started.1 = Some 0 ∧ 0 < 10 ∧
  NoDup antonyms ∧ 2 = Z.of_nat (length antonyms) - 1 ∧
  Forall (well_shaped "a.json") antonyms ∧
  ∃ p, (__next__ started).1 = inr p.
Proof.
  split; [done|]. split; [lia|]. split; [vm_compute; reflexivity|].
  split; [lia|]. split; [apply antonyms_NoDup|]. split; [reflexivity|].
  split; [apply antonyms_well_shaped|].
  destruct (draw_without_replacement "a.json" antonyms 2 10 7%N [CallIter] 0)
    as (i & it & _ & _ & _ & _ & _ & Hdistinct);
    [done|lia|vm_compute; reflexivity|lia|].
  destruct (Hdistinct antonyms_NoDup) as [Hfits _].
  destruct Hfits as [_ Hok]; [reflexivity|].
  apply Hok, antonyms_well_shaped.
Defined.

Lemma prompt_is_context_lines_then_query_witness :
  __next__ started = (inr first_prompt, (__next__ started).2) ∧
  0 < context_size started.1 ∧
  ∃ lines last, length lines = 2%nat ∧
                first_prompt = join nl (lines ++ [last]).
Proof.
  split; [vm_compute; reflexivity|]. split; [vm_compute; reflexivity|].
  destruct (prompt_is_context_lines_then_query started first_prompt
              (__next__ started).2)
    as (st & lines & last & _ & _ & _ & Hk & Hl & _ & Hj & _);
    [vm_compute; reflexivity|].
  exists lines, last. split.
  - change (context_size started.1) with 2 in Hk. lia.
  - apply Hj. vm_compute. reflexivity.
Defined.

Lemma failed_step_keeps_or_pops_witness :
  (__next__ oversized).1 = inl ValueError ∧
  ∃ i, ids_queue (refilled oversized).1
       = i :: ids_queue (__next__ oversized).2.1.
Proof.
  split; [vm_compute; reflexivity|].
  apply (failed_step_keeps_or_pops oversized ValueError);
    [vm_compute; reflexivity|by left].
Defined.

Lemma first_step_of_degenerate_loader_witness :
  -1 ≤ 0 ∧ (__next__ negative_target).1 = inl StopIteration ∧
  0 < 3 ∧ (__next__ empty_corpus).1 = inl IndexError.
Proof.
  split; [lia|]. split.
  - destruct (first_step_of_degenerate_loader "a.json" antonyms 2 (-1) 7%N)
      as [Hstop _].
    apply Hstop. lia.
  - split; [lia|].
    destruct (first_step_of_degenerate_loader "a.json" [] 2 3 7%N)
      as [_ Hempty].
    apply Hempty; [lia|reflexivity].
Defined.

Lemma iteration_ends_within_target_witness :
  (Z.to_nat 10 < 20)%nat ∧
  (∃ e, (iterate 20 (__iter__ fresh).2).1.2 = Some e) ∧
  (length (iterate 20 (__iter__ fresh).2).1.1 ≤ Z.to_nat 10)%nat ∧
  iterate 20 (__iter__ fresh).2 = run "a.json" antonyms 2 10 7%N.
Proof.
  assert (Z.to_nat 10 < 20)%nat as Hn by lia.
  split; [exact Hn|].
  exact (iteration_ends_within_target "a.json" antonyms 2 10 7%N 20 Hn).
Defined.

(** *** Where the code departs from the specification *)

(** C2 on the code: the queue that construction leaves is the corpus order
    [0 .. N-1] for every corpus and every generator state.  At a concrete
    input: the generator seeded with 7 shuffles [0; 1; 2] into [1; 0; 2],
    which lands in [ids]; the queue of the first pass is [0; 1; 2], and the
    first three queries are the corpus in its own order. *)
Theorem init_queue_not_shuffled :
  (∀ fp loaded k T (g : N),
     ids_queue (__init__ fp loaded k T g).1 = seq 0 (length loaded)) ∧
  (random_shuffle 7%N (seq 0 (length antonyms))).1 = [1; 0; 2]%nat ∧
  ids fresh.1 = [1; 0; 2]%nat ∧
  ids_queue fresh.1 = [0; 1; 2]%nat ∧
  map next_index (iterate 3 started).1.1 = [0; 1; 2]%nat.
Proof.
  split; [intros; apply init_queue_eq|].
  repeat split; vm_compute; reflexivity.
Qed.

(** C6 fails on the code: with a context size of 5 on three records the
    draw raises, and the queue has lost the index 0. *)
Lemma step_not_atomic_counterexample :
  ¬ ((∃ p, (__next__ oversized).1 = inr p) ∨
     ids_queue (__next__ oversized).2.1 ≡ₚ ids_queue oversized.1).
Proof.
  intros [[p Hp]|Hq].
  - vm_compute in Hp. discriminate.
  - apply Permutation_length in Hq. vm_compute in Hq. discriminate.
Qed.

(** C7 fails on the code: with a target count of -1 the first call signals
    the normal end of the sequence, not an error. *)
Lemma negative_target_counterexample :
  dataset_size negative_target.1 = -1 ∧
  ¬ (∃ e, (__next__ negative_target).1 = inl e ∧ e ≠ StopIteration).
Proof.
  split; [reflexivity|]. intros (e & He & Hne).
  vm_compute in He. congruence.
Qed.

(** C8 fails on the code: a restart after one prompt finds the queue at
    [1; 2], not at the [0; 1; 2] of construction, and the restarted
    iteration begins with another prompt than the first one did. *)
Lemma restart_keeps_queue_counterexample :
  current_iteration restarted.1 = Some 0 ∧
  ids_queue fresh.1 = [0; 1; 2]%nat ∧
  ids_queue restarted.1 = [1; 2]%nat ∧
  ids_queue restarted.1 ≠ ids_queue fresh.1 ∧
  (__next__ restarted).1 ≠ (__next__ started).1.
Proof.
  repeat split; try (vm_compute; reflexivity);
    intros Heq; vm_compute in Heq; discriminate.
Qed.

(** ** Further properties of the iterator *)

Section Budget.
Context `{Random G}.
Implicit Types (w : world (G:=G)) (g : G).

(** X1: a call returns a prompt only when the context size is at least 0 and
    smaller than the corpus: the query itself is never a candidate, so a
    context of [N] or more (or a negative one) never yields a prompt. *)
Theorem returned_prompt_bounds_context w p w' :
  __next__ w = (inr p, w') →
  0 ≤ context_size w.1 < Z.of_nat (length (data w.1)).
Proof.
  intros (st & Hst & _)%next_method_inr.
  apply next_step_inr in Hst
    as (c & bar & q' & _ & _ & _ & _ & Hit & Hcand & Hs & _ & _).
  apply random_sample_inr in Hs as (Hk & _ & _).
  assert (length (context_candidates st) < length (data w.1))%nat as Hlt.
  { rewrite Hcand. apply (length_filter_lt _ _ (prediction_item st)).
    - by eapply list_elem_of_lookup_2.
    - by intros ?. }
  lia.
Qed.

(** A call that raises leaves the counter as it was, and the progress bar
    too unless it closed it on signalling the end. *)
Lemma next_step_inl_counter w e :
  (next_step w).1 = inl e →
  current_iteration (next_step w).2.1 = current_iteration w.1 ∧
  (e ≠ StopIteration → tqdm_bar (next_step w).2.1 = tqdm_bar w.1).
Proof.
  destruct (refilled_frame w) as (_ & _ & _ & _ & Hc & Hb).
  rewrite next_step_eq. cbv zeta.
  destruct (current_iteration w.1) as [c|] eqn:Hcur;
    [|simpl; by rewrite Hcur].
  case_bool_decide.
  { destruct (tqdm_bar w.1) eqn:Hbar; simpl; intros [= <-];
      by rewrite ?Hcur, ?Hbar. }
  destruct (ids_queue (refilled w).1) as [|i q']; simpl; [done|].
  destruct (data (refilled w).1 !! i); simpl; [|done].
  destruct (random_sample _ _ _) as [[e'|ctx] g2]; simpl; [done|].
  destruct (build_prompt _ _ _); simpl; [done|].
  destruct (tqdm_bar (refilled w).1) eqn:Hbar; simpl; [done|].
  by rewrite Hbar.
Qed.

(** X2: the counter counts the prompts handed out and nothing else.  A call
    that returns advances [current_iteration] and the progress bar by one; a
    call that raises leaves the counter where it was, so a failed draw does
    not use up any of the target count. *)
Theorem counter_counts_returned_prompts w :
  (∀ p w', __next__ w = (inr p, w') →
     ∃ c bar, current_iteration w.1 = Some c ∧ tqdm_bar w.1 = Some bar ∧
       current_iteration w'.1 = Some (c + 1) ∧
       tqdm_bar w'.1 = Some (Tqdm (total bar) (count bar + 1) (closed bar))) ∧
  (∀ e, (__next__ w).1 = inl e →
     current_iteration (__next__ w).2.1 = current_iteration w.1 ∧
     (e ≠ StopIteration → tqdm_bar (__next__ w).2.1 = tqdm_bar w.1)).
Proof.
  split.
  - intros p w' (st & Hst & _)%next_method_inr.
    apply next_step_inr in Hst
      as (c & bar & q' & Hc & _ & Hbar & _ & _ & _ & _ & _ & ->).
    exists c, bar. by repeat split.
  - intros e He%next_method_inl. rewrite next_method_eq. simpl.
    by apply next_step_inl_counter.
Qed.

(** X3: the end of the sequence is final.  Once a call has signalled
    [StopIteration], the call after it signals it again and changes nothing
    any more, and so does every later call, until [__iter__] is called. *)
Theorem exhausted_stays_exhausted w :
  (__next__ w).1 = inl StopIteration →
  __next__ (__next__ w).2 = (inl StopIteration, (__next__ w).2) ∧
  ∀ n, (__next__ (after (replicate n CallNext) w)).1 = inl StopIteration.
Proof.
  intros Hstop.
  assert (__next__ (__next__ w).2 = (inl StopIteration, (__next__ w).2))
    as Hfix.
  { pose proof Hstop as (c & Hc & Hle)%next_method_inl%next_step_inl_cases.
    revert Hstop. rewrite !next_method_eq. simpl.
    rewrite (next_step_eq w), Hc, bool_decide_true by done.
    destruct w as [[fp k d i q T c0 [b|]] g]; simpl in *; [|done].
    intros _. rewrite next_step_eq. simpl. rewrite Hc.
    by rewrite bool_decide_true by done. }
  split; [done|].
  assert (∀ n, after (replicate (S n) CallNext) w = (__next__ w).2) as Hafter.
  { induction n as [|n IH]; [done|].
    rewrite replicate_S_end. unfold after in *. rewrite foldl_app, IH.
    simpl. by rewrite Hfix. }
  intros [|n]; [done|]. by rewrite Hafter, Hfix.
Qed.

(** What construction stored is what any later state holds. *)
Lemma reachable_frame fp loaded k T g calls :
  data (after calls (__init__ fp loaded k T g)).1 = loaded ∧
  context_size (after calls (__init__ fp loaded k T g)).1 = k ∧
  dataset_size (after calls (__init__ fp loaded k T g)).1 = T ∧
  file_path (after calls (__init__ fp loaded k T g)).1 = fp.
Proof.
  destruct (init_frame fp loaded k T g) as (Hf0 & Hk0 & Hd0 & HT0).
  destruct (after_frame calls (__init__ fp loaded k T g))
    as (Hf & Hk & Hd & HT).
  by rewrite Hf, Hk, Hd, HT.
Qed.

(** X4: no sequence of calls writes the corpus or the parameters: after any
    number of [__iter__] and [__next__] calls, whether they raised or not,
    the loader still holds the records, the context size, the target count
    and the path it was constructed with. *)
Theorem calls_keep_corpus_and_parameters fp loaded k T g calls :
  let w := after calls (__init__ fp loaded k T g) in
  data w.1 = loaded ∧ context_size w.1 = k ∧
  dataset_size w.1 = T ∧ file_path w.1 = fp.
Proof.
  intros w. unfold w.
  destruct (init_frame fp loaded k T g) as (Hf0 & Hk0 & Hd0 & HT0).
  destruct (after_frame calls (__init__ fp loaded k T g))
    as (Hf & Hk & Hd & HT).
  by rewrite Hf, Hk, Hd, HT.
Qed.

End Budget.

Section Reachable.
Context `{Random G}.
Implicit Types (w : world (G:=G)) (g : G).

(** The counter and the bar move together. *)
Lemma tracked_next_step w :
  (∀ c, current_iteration w.1 = Some c →
     0 ≤ c ∧ (c = 0 ∨ c ≤ dataset_size w.1) ∧
     ∃ bar, tqdm_bar w.1 = Some bar ∧
            total bar = dataset_size w.1 ∧ count bar = c) →
  ∀ c, current_iteration (next_step w).2.1 = Some c →
     0 ≤ c ∧ (c = 0 ∨ c ≤ dataset_size w.1) ∧
     ∃ bar, tqdm_bar (next_step w).2.1 = Some bar ∧
            total bar = dataset_size w.1 ∧ count bar = c.
Proof.
  intros Hw.
  destruct (next_step w) as [[e|st] w1] eqn:Hst; simpl.
  - assert ((next_step w).1 = inl e) as He by by rewrite Hst.
    destruct (next_step_inl_counter w e He) as [Hc Hb].
    rewrite Hst in Hc, Hb. simpl in *. rewrite Hc. intros c Hcur.
    destruct (Hw c Hcur) as (H0 & HT & bar & Hbar & Htot & Hcnt).
    split; [done|]. split; [done|].
    destruct (decide (e = StopIteration)) as [->|Hne].
    + pose proof (next_step_inl_cases w _ He) as (c' & Hc' & Hle).
      assert (c' = c) as -> by congruence.
      revert Hst. rewrite next_step_eq, Hcur, Hbar.
      rewrite bool_decide_true by done.
      intros [= <-]. simpl. eexists. split; [done|]. by simpl.
    + rewrite Hb by done. by eauto.
  - apply next_step_inr in Hst
      as (c0 & bar & q' & Hc & Hlt & Hbar & _ & _ & _ & _ & _ & ->).
    simpl. intros c [= <-].
    destruct (Hw c0 Hc) as (H0 & HT & bar' & Hbar' & Htot & Hcnt).
    rewrite Hbar in Hbar'. injection Hbar' as <-.
    split; [lia|]. split; [right; lia|].
    eexists. split; [done|]. simpl. split; [done|lia].
Qed.

(** X5: the progress bar follows the counter.  In every state reachable
    from construction in which iteration has started, the bar exists, its
    total is the target count, its count is [current_iteration], and the
    counter is at least 0 and, once it has left 0, at most the target
    count. *)
Theorem progress_bar_tracks_counter fp loaded k T g calls c :
  let w := after calls (__init__ fp loaded k T g) in
  current_iteration w.1 = Some c →
  0 ≤ c ∧ (c = 0 ∨ c ≤ T) ∧
  ∃ bar, tqdm_bar w.1 = Some bar ∧ total bar = T ∧ count bar = c.
Proof.
  simpl. revert c.
  assert (∀ w calls,
    dataset_size w.1 = T →
    (∀ c, current_iteration w.1 = Some c →
       0 ≤ c ∧ (c = 0 ∨ c ≤ T) ∧
       ∃ bar, tqdm_bar w.1 = Some bar ∧ total bar = T ∧ count bar = c) →
    ∀ c, current_iteration (after calls w).1 = Some c →
       0 ≤ c ∧ (c = 0 ∨ c ≤ T) ∧
       ∃ bar, tqdm_bar (after calls w).1 = Some bar ∧
              total bar = T ∧ count bar = c) as Hind.
  { intros w cs. revert w. unfold after.
    induction cs as [|call cs IH]; intros w HT Hw; [done|]. simpl.
    apply IH.
    - destruct call; simpl; [done|]. rewrite next_method_eq. simpl.
      destruct (next_step_frame w) as (_ & _ & _ & ->). done.
    - destruct call; simpl.
      + intros c [= <-]. split; [done|]. split; [by left|]. by eauto.
      + rewrite next_method_eq. simpl. rewrite <- HT in *.
        by apply tracked_next_step. }
  apply Hind.
  - by destruct (init_frame fp loaded k T g) as (_ & _ & _ & ->).
  - intros c. unfold __init__. by destruct (random_shuffle g _).
Qed.



(** X7: which exceptions a call can raise.  On a non-empty corpus no call in
    any state reachable from construction raises [IndexError]: every queued
    index is a position of the corpus.  If moreover every record has the
    fields of its kind, no call raises [KeyError] either, so a call returns,
    signals the end, reports a context that does not fit ([ValueError]) or,
    before [__iter__], a missing attribute. *)
Theorem exceptions_of_reachable_calls fp loaded k T g calls :
  let w := after calls (__init__ fp loaded k T g) in
  loaded ≠ [] →
  (__next__ w).1 ≠ inl IndexError ∧
  (Forall (well_shaped fp) loaded → (__next__ w).1 ≠ inl KeyError).
Proof.
  intros w Hne.
  destruct (reachable_frame fp loaded k T g calls)
    as (Hd & Hk & HT & Hf).
  fold w in Hd, Hk, HT, Hf.
  assert (valid w.1) as Hv by apply valid_after, valid_init.
  clearbody w.
  pose proof (valid_refilled w Hv) as Hvr.
  destruct (refilled_frame w) as (Hfr & Hkr & Hdr & _ & _ & Hbr).
  assert (∀ e, (e = IndexError ∨
                (e = KeyError ∧ Forall (well_shaped fp) loaded)) →
               (next_step w).1 ≠ inl e) as Hno.
  { intros e He. rewrite next_step_eq. cbv zeta.
    destruct (current_iteration w.1) as [c|];
      [|by destruct He as [->|[-> _]]].
    case_bool_decide.
    { destruct (tqdm_bar w.1); by destruct He as [->|[-> _]]. }
    destruct (ids_queue (refilled w).1) as [|i q'] eqn:Hq.
    { by destruct (valid_refilled_nonempty w Hv); [rewrite Hd|]. }
    simpl.
    destruct (valid_queue_lookup _ i Hvr) as [it Hit]; [rewrite Hq; by left|].
    rewrite Hit.
    destruct (random_sample _ _ _) as [[e'|ctx] g2] eqn:Hs; simpl.
    { apply random_sample_inl in Hs as (-> & _ & _).
      by destruct He as [->|[-> _]]. }
    destruct (build_prompt _ ctx it) as [e'|p] eqn:Hp; simpl.
    - apply build_prompt_inl in Hp as Hkey. subst e'.
      destruct He as [->|[-> Hall]]; [done|]. exfalso.
      apply random_sample_inr in Hs as (_ & _ & Hdraw).
      rewrite Forall_forall in Hall.
      destruct (build_prompt_well_shaped
                  (file_path (refilled w).1) ctx it) as [p' Hp'];
        [| |congruence].
      + rewrite Hfr, Hf. apply Forall_forall.
        intros x [n Hn]%list_elem_of_lookup.
        destruct (Forall2_lookup_r _ _ _ _ _ Hdraw Hn) as (j & _ & Hj).
        apply list_elem_of_lookup_2, list_elem_of_filter in Hj as [_ Hj].
        apply Hall. by rewrite <- Hd, <- Hdr.
      + rewrite Hfr, Hf. apply Hall. rewrite <- Hd, <- Hdr.
        by eapply list_elem_of_lookup_2.
    - destruct (tqdm_bar (refilled w).1); [done|].
      by destruct He as [->|[-> _]]. }
  split.
  - intros He%next_method_inl. by eapply Hno; [left|].
  - intros Hall He%next_method_inl. by eapply Hno; [right|].
Qed.

End Reachable.

Section Context_draw.
Context `{Random G}.
Implicit Types (w : world (G:=G)) (g : G).

(** The query has the one field its closing line reads. *)
Definition query_shaped (fp : string) (it : item) : Prop :=
  if str_contains "json" fp
  then is_Some (it !! "input")
  else is_Some (it !! "sentence").

Lemma build_prompt_shaped fp context query :
  Forall (well_shaped fp) context → query_shaped fp query →
  ∃ p, build_prompt fp context query = inr p.
Proof.
  unfold well_shaped, query_shaped, build_prompt. intros Hctx Hq.
  destruct (str_contains "json" fp).
  - destruct (comprehension_total pair_line context) as [lines ->].
    { eapply Forall_impl; [done|]. intros x [[i Hi] [o Ho]].
      unfold pair_line, getitem. rewrite Hi, Ho. by eauto. }
    destruct Hq as [i Hi]. unfold pair_query, getitem. rewrite Hi.
    by eauto.
  - destruct (comprehension_total sentiment_line context) as [lines ->].
    { eapply Forall_impl; [done|]. intros x [[i Hi] [o Ho]].
      unfold sentiment_line, getitem. rewrite Hi, Ho. by eauto. }
    destruct Hq as [i Hi]. unfold sentiment_query, getitem. rewrite Hi.
    by eauto.
Qed.

(** X8: the templates raise exactly when a field they read is missing.
    Formatting returns a prompt if and only if every context record has both
    fields of the data set kind and the query has its [input] (or
    [sentence]) field, and raises [KeyError] if and only if not; the
    [output] (or [label]) of the query is not needed. *)
Theorem templates_raise_iff_field_missing fp (context : list item) query :
  ((∃ p, build_prompt fp context query = inr p) ↔
     Forall (well_shaped fp) context ∧ query_shaped fp query) ∧
  (build_prompt fp context query = inl KeyError ↔
     ¬ (Forall (well_shaped fp) context ∧ query_shaped fp query)).
Proof.
  assert ((∃ p, build_prompt fp context query = inr p) ↔
          Forall (well_shaped fp) context ∧ query_shaped fp query) as Hiff.
  { split; [|intros [? ?]; by apply build_prompt_shaped].
    intros [p Hp]. unfold build_prompt, well_shaped, query_shaped in *.
    destruct (str_contains "json" fp).
    - destruct (comprehension pair_line context) as [e|lines] eqn:Hc; [done|].
      apply comprehension_inr in Hc. split.
      + apply Forall_forall. intros x [n Hn]%list_elem_of_lookup.
        destruct (Forall2_lookup_l _ _ _ _ _ Hc Hn) as (line & _ & Hl).
        apply pair_line_inr in Hl as (i & o & -> & -> & _). by eauto.
      + unfold pair_query, getitem in Hp.
        destruct (query !! "input") as [i|]; [by eauto|done].
    - destruct (comprehension sentiment_line context) as [e|lines] eqn:Hc;
        [done|].
      apply comprehension_inr in Hc. split.
      + apply Forall_forall. intros x [n Hn]%list_elem_of_lookup.
        destruct (Forall2_lookup_l _ _ _ _ _ Hc Hn) as (line & _ & Hl).
        apply sentiment_line_inr in Hl as (i & o & -> & -> & _). by eauto.
      + unfold sentiment_query, getitem in Hp.
        destruct (query !! "sentence") as [i|]; [by eauto|done]. }
  split; [done|]. rewrite <- Hiff.
  destruct (build_prompt fp context query) as [e|p] eqn:Hp.
  - apply build_prompt_inl in Hp as ->. split; [|done].
    intros _ [p Hp']. done.
  - split; [done|]. intros Hno. destruct Hno. by eauto.
Qed.

(** The closing line reads one field of the query. *)
Lemma build_prompt_query_field fp (context : list item) q1 q2 :
  (if str_contains "json" fp
   then q1 !! "input" = q2 !! "input"
   else q1 !! "sentence" = q2 !! "sentence") →
  build_prompt fp context q1 = build_prompt fp context q2.
Proof.
  unfold build_prompt, pair_query, sentiment_query, getitem.
  destruct (str_contains "json" fp); by intros ->.
Qed.

Lemma filter_all {A} (P : A → Prop) `{∀ x, Decision (P x)} (l : list A) :
  Forall P l → filter P l = l.
Proof.
  induction 1 as [|x l Hx _ IH]; [done|].
  by rewrite filter_cons_True, IH.
Qed.

(** Taking a record away from a list in which it occurs once. *)
Lemma filter_ne_middle (l1 l2 : list item) (x : item) :
  NoDup (l1 ++ x :: l2) → filter (λ y, y ≠ x) (l1 ++ x :: l2) = l1 ++ l2.
Proof.
  intros (Hl1 & Hx & Hl2)%NoDup_app.
  apply NoDup_cons in Hl2 as [Hx2 _].
  rewrite filter_app, filter_cons_False by (by intros ?).
  rewrite !filter_all; [done| |].
  - apply Forall_forall. by intros y Hy ->.
  - apply Forall_forall. intros y Hy ->. apply (Hx x Hy). by left.
Qed.

(** X9: the answer of the query does not reach the prompt.  Take two
    loaders in the same state whose corpora, both of pairwise different
    records, differ only in the record at position [i], and there only
    outside the [input] (pair kind) or [sentence] (sentiment kind) field.
    When [i] is the index the next call pops, both calls return the same
    prompt or raise the same exception. *)
Theorem query_answer_does_not_leak
    fp k (d : list item) ids0 queue T c bar g i (q q' : item) :
  let w1 : world := (Loader fp k d ids0 queue T c bar, g) in
  let w2 : world := (Loader fp k (<[i:=q']> d) ids0 queue T c bar, g) in
  d !! i = Some q →
  (if str_contains "json" fp
   then q !! "input" = q' !! "input"
   else q !! "sentence" = q' !! "sentence") →
  NoDup d → NoDup (<[i:=q']> d) →
  head (ids_queue (refilled w1).1) = Some i →
  (__next__ w1).1 = (__next__ w2).1.
Proof.
  intros w1 w2 Hi Hfield Hnd Hnd' Hhead.
  pose proof (lookup_lt_Some _ _ _ Hi) as Hlt.
  assert (filter (λ y, y ≠ q) d = filter (λ y, y ≠ q') (<[i:=q']> d))
    as Hcand.
  { rewrite insert_take_drop in * by done.
    rewrite <- (take_drop_middle d i q Hi) in Hnd at 1.
    rewrite <- (take_drop_middle d i q Hi) at 1.
    by rewrite !filter_ne_middle. }
  assert (∃ q0 ids1 g1,
    refilled w1 = (Loader fp k d ids1 q0 T c bar, g1) ∧
    refilled w2 = (Loader fp k (<[i:=q']> d) ids1 q0 T c bar, g1))
    as (q0 & ids1 & g1 & Hr1 & Hr2).
  { destruct (decide (queue = [])) as [->|Hq].
    - rewrite (refilled_empty w1), (refilled_empty w2) by done. simpl.
      by eauto.
    - rewrite (refilled_nonempty w1), (refilled_nonempty w2) by done.
      by eauto. }
  rewrite Hr1 in Hhead. simpl in Hhead.
  destruct q0 as [|j q0']; [done|]. injection Hhead as ->.
  rewrite !next_method_eq. simpl. rewrite !next_step_eq. simpl.
  destruct c as [c|]; [|done].
  case_bool_decide; [by destruct bar|].
  rewrite Hr1, Hr2. simpl. rewrite Hi.
  rewrite list_lookup_insert_eq by done. rewrite <- Hcand.
  destruct (random_sample g1 _ k) as [[e|ctx] g2]; simpl; [done|].
  rewrite (build_prompt_query_field fp ctx q q' Hfield).
  destruct (build_prompt fp ctx q'); simpl; [done|]. by destruct bar.
Qed.

(** Elements read at pairwise different positions of a list form a
    sub-multiset of it. *)
Lemma lookups_submseteq {A} (d : A) (l : list A) js xs :
  NoDup js → Forall2 (λ j x, l !! j = Some x) js xs → xs ⊆+ l.
Proof.
  intros Hnd Hf.
  set (f := λ j : nat, default d (l !! j)).
  assert (xs = f <$> js) as ->.
  { induction Hf as [|j x js xs Hj _ IH]; [done|].
    apply NoDup_cons in Hnd as [_ Hnd]. simpl. unfold f at 1.
    rewrite Hj. simpl. f_equal. by apply IH. }
  assert (f <$> seq 0 (length l) = l) as Hall.
  { apply list_eq. intros i. rewrite list_lookup_fmap.
    destruct (l !! i) as [x|] eqn:Hi.
    - rewrite lookup_seq_lt by (by eapply lookup_lt_Some). simpl.
      unfold f. by rewrite Hi.
    - rewrite lookup_ge_None_2; [done|].
      rewrite length_seq. by apply lookup_ge_None_1. }
  assert (f <$> js ⊆+ f <$> seq 0 (length l)) as Hsub; [|by rewrite Hall in Hsub].
  apply fmap_submseteq.
  apply NoDup_submseteq; [done|]. intros j Hj. apply elem_of_seq.
  apply list_elem_of_lookup in Hj as [n Hn].
  destruct (Forall2_lookup_l _ _ _ _ _ Hf Hn) as (x & _ & Hx).
  apply lookup_lt_Some in Hx. lia.
Qed.

(** X10: the context is drawn without replacement as a multiset of
    records: the drawn records form a sub-multiset of the candidates, hence
    of the corpus, so no record appears in a context more often than it
    appears in the corpus; on a corpus of pairwise different records the
    context records are pairwise different. *)
Theorem context_is_submultiset_of_corpus w p w' :
  __next__ w = (inr p, w') →
  ∃ st, next_step w = (inr st, w') ∧
    context_examples st ⊆+ context_candidates st ∧
    context_examples st ⊆+ data w.1 ∧
    (NoDup (data w.1) → NoDup (context_examples st)).
Proof.
  intros (st & Hst & _)%next_method_inr. exists st. split; [done|].
  apply next_step_inr in Hst
    as (c & bar & q' & _ & _ & _ & _ & _ & Hcand & Hs & _ & _).
  apply sample_drawn_positions in Hs as (js & Hnd & _ & _ & Hdraw).
  assert (context_examples st ⊆+ context_candidates st) as Hsub
    by (by eapply (lookups_submseteq ∅)).
  assert (context_examples st ⊆+ data w.1) as Hsub'.
  { etrans; [done|]. rewrite Hcand.
    apply sublist_submseteq, sublist_filter. }
  split; [done|]. split; [done|].
  intros Hdata. destruct (submseteq_Permutation _ _ Hsub') as [rest Hperm].
  rewrite Hperm in Hdata. by apply NoDup_app in Hdata as [? _].
Qed.

End Context_draw.

Section Passes.
Context `{Random G}.
Implicit Types (w : world (G:=G)) (g : G).

Lemma valid_iterate n : ∀ w, valid w.1 → valid (iterate n w).2.1.
Proof.
  induction n as [|n IH]; intros w Hv; [done|]. simpl.
  pose proof (valid_next_step w Hv) as Hv1.
  destruct (next_step w) as [[e|st] w1]; [done|].
  specialize (IH w1 Hv1). by destruct (iterate n w1) as [[sts e'] w2].
Qed.

(** A run of returning calls splits into two runs. *)
Lemma iterate_add a : ∀ b w sts w',
  iterate (a + b) w = (sts, None, w') →
  ∃ sts1 w1 sts2,
    iterate a w = (sts1, None, w1) ∧ iterate b w1 = (sts2, None, w') ∧
    sts = sts1 ++ sts2.
Proof.
  induction a as [|a IH]; intros b w sts w' Hit; simpl in *.
  { by exists [], w, sts. }
  destruct (next_step w) as [[e|st] w0]; [done|].
  destruct (iterate (a + b) w0) as [[sts0 e0] w2] eqn:Hrest.
  injection Hit as <- -> <-.
  destruct (IH b w0 sts0 w2 Hrest) as (sts1 & w1 & sts2 & -> & Hb & ->).
  by exists (st :: sts1), w1, sts2.
Qed.

Lemma filter_eq_none (l : list nat) (i : nat) :
  i ∉ l → filter (λ j, j = i) l = [].
Proof.
  induction l as [|x l IH]; [done|].
  intros [Hne Hl]%not_elem_of_cons.
  rewrite filter_cons_False by (intros ->; done). by apply IH.
Qed.

Lemma filter_eq_once (l : list nat) (i : nat) :
  NoDup l → i ∈ l → length (filter (λ j, j = i) l) = 1%nat.
Proof.
  induction 1 as [|x l Hx Hnd IH]; [by inversion 1|].
  intros [->|Hin]%elem_of_cons.
  - rewrite filter_cons_True by done. simpl. f_equal.
    by rewrite filter_eq_none.
  - rewrite filter_cons_False by (intros ->; done). by apply IH.
Qed.

(** The indices queried in passes that start with a full queue. *)
Lemma passes_balanced m : ∀ w sts w',
  valid w.1 →
  length (ids_queue (refilled w).1) = length (data w.1) →
  iterate (m * length (data w.1)) w = (sts, None, w') →
  ∀ i, (i < length (data w.1))%nat →
       length (filter (λ j, j = i) (map next_index sts)) = m.
Proof.
  induction m as [|m IH]; intros w sts w' Hv Hfull Hit i Hi.
  { simpl in Hit. by injection Hit as <- <-. }
  change (S m * length (data w.1))%nat
    with (length (data w.1) + m * length (data w.1))%nat in Hit.
  apply iterate_add in Hit as (sts1 & w1 & sts2 & Hpass & Hrest & ->).
  set (q := ids_queue (refilled w).1) in *.
  destruct (iterate_fifo (length (data w.1)) w sts1 w1) as [Hm Hdrop];
    [fold q; lia|done|].
  fold q in Hm, Hdrop. rewrite take_ge in Hm by lia.
  rewrite drop_ge in Hdrop by lia. specialize (Hdrop ltac:(lia)).
  assert (q ≡ₚ seq 0 (length (data w.1))) as Hperm.
  { destruct (valid_refilled w Hv) as [_ [used Hu] _].
    destruct (refilled_frame w) as (_ & _ & Hdr & _).
    rewrite Hdr in Hu. fold q in Hu.
    pose proof (Permutation_length Hu) as Hl.
    rewrite length_app, length_seq in Hl.
    destruct used; [done|simpl in Hl; lia]. }
  assert (data w1.1 = data w.1) as Hd1.
  { pose proof (iterate_frame (length (data w.1)) w) as (_ & _ & Hd & _).
    by rewrite Hpass in Hd. }
  assert (valid w1.1) as Hv1.
  { pose proof (valid_iterate (length (data w.1)) w Hv) as Hv1.
    by rewrite Hpass in Hv1. }
  assert (length (ids_queue (refilled w1).1) = length (data w1.1)) as Hfull1.
  { rewrite (refilled_empty w1 Hdrop). simpl.
    rewrite random_shuffle_perm, (valid_ids _ Hv1). by rewrite length_seq. }
  pose proof Hi as Hi1. rewrite <- Hd1 in Hrest, Hi1.
  specialize (IH w1 sts2 w' Hv1 Hfull1 Hrest i Hi1).
  rewrite map_app, filter_app, length_app, IH, Hm.
  rewrite Hperm, filter_eq_once; [done|apply NoDup_seq|].
  apply elem_of_seq. lia.
Qed.

(** X11: passes share the queries out evenly.  From a state reachable from
    construction that stands at the start of a pass (all [N] indices are
    about to be queued, as after construction and whenever the queue is
    empty), [m * N] calls that all return use every corpus index as the
    query exactly [m] times. *)
Theorem passes_use_every_index_equally fp loaded k T g calls m sts w' :
  let w := after calls (__init__ fp loaded k T g) in
  length (ids_queue (refilled w).1) = length loaded →
  iterate (m * length loaded) w = (sts, None, w') →
  ∀ i, (i < length loaded)%nat →
       length (filter (λ j, j = i) (map next_index sts)) = m.
Proof.
  intros w Hfull Hit i Hi.
  destruct (reachable_frame fp loaded k T g calls) as (Hd & _).
  fold w in Hd. rewrite <- Hd in *.
  eapply passes_balanced; [|done..].
  apply valid_after, valid_init.
Qed.

(** One more prompt from a loader that is configured for it. *)
Lemma next_step_returns w c :
  valid w.1 → data w.1 ≠ [] →
  current_iteration w.1 = Some c → c < dataset_size w.1 →
  0 ≤ context_size w.1 →
  (∀ it, it ∈ data w.1 →
     context_size w.1
       ≤ Z.of_nat (length (filter (λ x, x ≠ it) (data w.1)))) →
  Forall (well_shaped (file_path w.1)) (data w.1) →
  ∃ st w1, next_step w = (inr st, w1) ∧
           current_iteration w1.1 = Some (c + 1).
Proof.
  intros Hv Hne Hc Hlt Hk Hfits Hall.
  pose proof (valid_refilled w Hv) as Hvr.
  destruct (valid_bar _ Hv) as [bar Hbar]; [by eauto|].
  destruct (ids_queue (refilled w).1) as [|i q'] eqn:Hq.
  { by destruct (valid_refilled_nonempty w Hv). }
  destruct (valid_queue_lookup _ i Hvr) as [it Hit]; [rewrite Hq; by left|].
  destruct (refilled_frame w) as (_ & _ & Hdr & _). rewrite Hdr in Hit.
  assert (it ∈ data w.1) as Hin by (by eapply list_elem_of_lookup_2).
  pose proof (next_step_at_draw w c bar i q' it Hc Hlt Hbar Hq Hit) as Hout.
  cbv zeta in Hout.
  destruct (random_sample_in_range (refilled w).2
              (filter (λ x, x ≠ it) (data w.1)) (context_size w.1))
    as (ctx & g2 & Hs); [split; [done|by apply Hfits]|].
  rewrite Hs in Hout. simpl in Hout.
  destruct (build_prompt_well_shaped (file_path w.1) ctx it) as [p Hp].
  { apply random_sample_inr in Hs as (_ & _ & Hdraw).
    rewrite Forall_forall in Hall. apply Forall_forall.
    intros x [n Hn]%list_elem_of_lookup.
    destruct (Forall2_lookup_r _ _ _ _ _ Hdraw Hn) as (j & _ & Hj).
    apply list_elem_of_lookup_2, list_elem_of_filter in Hj as [_ Hj].
    by apply Hall. }
  { rewrite Forall_forall in Hall. by apply Hall. }
  rewrite Hp in Hout.
  destruct (next_step w) as [r w1] eqn:Hst. simpl in Hout. subst r.
  eexists _, w1. split; [done|].
  apply next_step_inr in Hst
    as (c' & bar' & q'' & Hc' & _ & _ & _ & _ & _ & _ & _ & ->).
  simpl. congruence.
Qed.

Lemma iterate_well_configured n : ∀ w c,
  valid w.1 → data w.1 ≠ [] →
  current_iteration w.1 = Some c → c ≤ dataset_size w.1 →
  Z.to_nat (dataset_size w.1 - c) = n →
  0 ≤ context_size w.1 →
  (∀ it, it ∈ data w.1 →
     context_size w.1
       ≤ Z.of_nat (length (filter (λ x, x ≠ it) (data w.1)))) →
  Forall (well_shaped (file_path w.1)) (data w.1) →
  ∃ sts w',
    iterate (S n) w = (sts, Some StopIteration, w') ∧ length sts = n ∧
    current_iteration w'.1 = Some (dataset_size w.1).
Proof.
  induction n as [|n IH]; intros w c Hv Hne Hc Hle Hn Hk Hfits Hall.
  - assert (c = dataset_size w.1) as -> by lia.
    destruct (valid_bar _ Hv) as [bar Hbar]; [by eauto|].
    cbn [iterate]. rewrite next_step_eq, Hc, Hbar.
    rewrite bool_decide_true by done. eexists _, _. split; [done|].
    split; [done|]. simpl. done.
  - destruct (next_step_returns w c) as (st & w1 & Hst & Hc1);
      [done|done|done|lia|done|done|done|].
    pose proof (next_step_frame w) as (Hf1 & Hk1 & Hd1 & HT1).
    pose proof (valid_next_step w Hv) as Hv1.
    rewrite Hst in Hf1, Hk1, Hd1, HT1, Hv1. simpl in *.
    destruct (IH w1 (c + 1)) as (sts & w' & Hit & Hlen & Hend).
    + done.
    + by rewrite Hd1.
    + done.
    + rewrite HT1. lia.
    + rewrite HT1. lia.
    + by rewrite Hk1.
    + rewrite Hk1, Hd1. done.
    + by rewrite Hf1, Hd1.
    + exists (st :: sts), w'. cbn [iterate] in *. rewrite Hst, Hit.
      split; [done|]. split; [simpl; by rewrite Hlen|]. by rewrite <- HT1.
Qed.

(** X12: a well configured loader hands out exactly [T] prompts.  On a
    non-empty corpus of records that have their fields, with a target count
    [T >= 0] and a context size [k >= 0] that every query leaves enough
    candidates for, constructing the loader and consuming it as an iterator
    yields [T] prompts and then ends with [StopIteration], the counter at
    [T]. *)
Theorem well_configured_run_yields_target fp loaded k T g :
  loaded ≠ [] → 0 ≤ T → 0 ≤ k →
  (∀ it, it ∈ loaded →
     k ≤ Z.of_nat (length (filter (λ x, x ≠ it) loaded))) →
  Forall (well_shaped fp) loaded →
  ∃ sts w', run fp loaded k T g = (sts, Some StopIteration, w') ∧
            length sts = Z.to_nat T ∧ current_iteration w'.1 = Some T.
Proof.
  intros Hne HT Hk Hfits Hall. unfold run.
  set (w := (__iter__ (__init__ fp loaded k T g)).2).
  assert (current_iteration w.1 = Some 0 ∧ dataset_size w.1 = T ∧
          data w.1 = loaded ∧ context_size w.1 = k ∧ file_path w.1 = fp)
    as (Hc & HTw & Hd & Hkw & Hf).
  { unfold w, __init__. by destruct (random_shuffle g _). }
  assert (valid w.1) as Hv by apply valid_iter, valid_init.
  clearbody w. subst T loaded k fp.
  destruct (iterate_well_configured (Z.to_nat (dataset_size w.1)) w 0)
    as (sts & w' & Hit & Hlen & Hend); [done|done|done|lia| |done..|].
  - f_equal. lia.
  - by exists sts, w'.
Qed.

End Passes.

(** *** The further properties on the antonym scenario *)

(** [hot] with another answer. *)
Definition hot_relabelled : item :=
  {[ "input" := VStr "hot"; "output" := VStr "freezing" ]}.

Lemma antonyms_fit (it : item) :
  it ∈ antonyms →
  2 ≤ Z.of_nat (length (filter (λ x, x ≠ it) antonyms)).
Proof.
  intros Hin.
  pose proof (length_filter_ne antonyms it antonyms_NoDup Hin) as Hlen.
  change (length antonyms) with 3%nat in Hlen. lia.
Qed.

Lemma returned_prompt_bounds_context_witness :
  __next__ started = (inr first_prompt, (__next__ started).2) ∧
  0 ≤ context_size started.1 < Z.of_nat (length (data started.1)).
Proof.
  split; [vm_compute; reflexivity|].
  apply (returned_prompt_bounds_context started first_prompt
           (__next__ started).2).
  vm_compute. reflexivity.
Defined.

Lemma counter_counts_returned_prompts_witness :
  __next__ started = (inr first_prompt, (__next__ started).2) ∧
  (∃ c, current_iteration started.1 = Some c ∧
        current_iteration (__next__ started).2.1 = Some (c + 1)) ∧
  (__next__ oversized).1 = inl ValueError ∧
  current_iteration (__next__ oversized).2.1 = current_iteration oversized.1.
Proof.
  split; [vm_compute; reflexivity|]. split.
  - destruct (counter_counts_returned_prompts started) as [Hret _].
    destruct (Hret first_prompt (__next__ started).2)
      as (c & bar & Hc & _ & Hc' & _); [vm_compute; reflexivity|].
    exists c. split; [exact Hc|exact Hc'].
  - split; [vm_compute; reflexivity|].
    destruct (counter_counts_returned_prompts oversized) as [_ Hraise].
    destruct (Hraise ValueError) as [Hc _]; [vm_compute; reflexivity|].
    exact Hc.
Defined.

Lemma exhausted_stays_exhausted_witness :
  (__next__ negative_target).1 = inl StopIteration ∧
  __next__ (__next__ negative_target).2
  = (inl StopIteration, (__next__ negative_target).2).
Proof.
  split; [vm_compute; reflexivity|].
  destruct (exhausted_stays_exhausted negative_target) as [Hfix _];
    [vm_compute; reflexivity|].
  exact Hfix.
Defined.

Lemma progress_bar_tracks_counter_witness :
  current_iteration pass_done.1 = Some 3 ∧
  ∃ bar, tqdm_bar pass_done.1 = Some bar ∧ total bar = 10 ∧ count bar = 3.
Proof.
  split; [vm_compute; reflexivity|].
  destruct (progress_bar_tracks_counter "a.json" antonyms 2 10 7%N
              [CallIter; CallNext; CallNext; CallNext] 3)
    as (_ & _ & Hbar); [vm_compute; reflexivity|].
  exact Hbar.
Defined.

Lemma exceptions_of_reachable_calls_witness :
  antonyms ≠ [] ∧ Forall (well_shaped "a.json") antonyms ∧
  (__next__ started).1 ≠ inl IndexError ∧
  (__next__ started).1 ≠ inl KeyError.
Proof.
  split; [done|]. split; [apply antonyms_well_shaped|].
  destruct (exceptions_of_reachable_calls "a.json" antonyms 2 10 7%N
              [CallIter]) as [Hindex Hkey]; [done|].
  split; [exact Hindex|]. apply Hkey, antonyms_well_shaped.
Defined.

Lemma query_answer_does_not_leak_witness :
  antonyms !! 0%nat = Some hot ∧
  hot !! "input" = hot_relabelled !! "input" ∧
  NoDup antonyms ∧ NoDup (<[0%nat:=hot_relabelled]> antonyms) ∧
  (__next__ (Loader "a.json" 2 antonyms [1; 0; 2]%nat [0; 1; 2]%nat 10
               (Some 0) (Some (Tqdm 10 0 false)), 7%N)).1
  = (__next__ (Loader "a.json" 2 (<[0%nat:=hot_relabelled]> antonyms)
                 [1; 0; 2]%nat [0; 1; 2]%nat 10
                 (Some 0) (Some (Tqdm 10 0 false)), 7%N)).1.
Proof.
  assert (NoDup (<[0%nat:=hot_relabelled]> antonyms)) as Hnd
    by (apply (bool_decide_unpack _); vm_compute; exact I).
  split; [reflexivity|]. split; [vm_compute; reflexivity|].
  split; [apply antonyms_NoDup|]. split; [exact Hnd|].
  apply (query_answer_does_not_leak "a.json" 2 antonyms [1; 0; 2]%nat
           [0; 1; 2]%nat 10 (Some 0) (Some (Tqdm 10 0 false)) 7%N
           0%nat hot hot_relabelled);
    [reflexivity|vm_compute; reflexivity|apply antonyms_NoDup|exact Hnd|
     reflexivity].
Defined.

Lemma context_is_submultiset_of_corpus_witness :
  __next__ started = (inr first_prompt, (__next__ started).2) ∧
  NoDup (data started.1) ∧
  ∃ st, context_examples st ⊆+ data started.1 ∧
        NoDup (context_examples st).
Proof.
  split; [vm_compute; reflexivity|].
  assert (NoDup (data started.1)) as Hnd by exact antonyms_NoDup.
  split; [exact Hnd|].
  destruct (context_is_submultiset_of_corpus started first_prompt
              (__next__ started).2)
    as (st & _ & _ & Hsub & Hdistinct); [vm_compute; reflexivity|].
  exists st. split; [exact Hsub|]. apply Hdistinct, Hnd.
Defined.

Lemma passes_use_every_index_equally_witness :
  length (ids_queue (refilled pass_done).1) = length antonyms ∧
  ∃ sts w', iterate (2 * length antonyms) pass_done = (sts, None, w') ∧
    ∀ i, (i < length antonyms)%nat →
         length (filter (λ j, j = i) (map next_index sts)) = 2%nat.
Proof.
  split; [vm_compute; reflexivity|].
  eexists _, _. split; [vm_compute; reflexivity|].
  eapply (passes_use_every_index_equally "a.json" antonyms 2 10 7%N
            [CallIter; CallNext; CallNext; CallNext] 2);
    vm_compute; reflexivity.
Defined.

Lemma well_configured_run_yields_target_witness :
  antonyms ≠ [] ∧ 0 ≤ 10 ∧ 0 ≤ 2 ∧
  Forall (well_shaped "a.json") antonyms ∧
  ∃ sts w', run "a.json" antonyms 2 10 7%N = (sts, Some StopIteration, w') ∧
            length sts = Z.to_nat 10 ∧ current_iteration w'.1 = Some 10.
Proof.
  split; [done|]. split; [lia|]. split; [lia|].
  split; [apply antonyms_well_shaped|].
  apply (well_configured_run_yields_target "a.json" antonyms 2 10 7%N);
    [done|lia|lia|apply antonyms_fit|apply antonyms_well_shaped].
Defined.
